(** * jni_internals.h: dispatch generation, descriptors and object layout

    A shallow embedding of [src/jni/jni_internals.h]: the [dispatch]
    template with its two generated entry points, the three
    [ManagedMethod] registration functions, the field registration
    macros, the [Object] family and the [String] address-of operator.

    Conventions.
    - A C++ type is a [ctype]; [std::is_same_v] is [is_same].
    - A [const char *] is a [cstr]: [None] is the null pointer.
    - A [Class *] is an address in [Z]; [nullptr] is [0].
    - Template instantiation and [static_assert] happen at build time;
      their outcome is a [build] value, distinct from anything a running
      entry point can return.
    - Reading past the arguments actually supplied (through [va_arg] or
      through the [jvalue] pointer) is undefined in C++, and so is
      [va_arg] at a type that the default argument promotions change; an
      entry point then has no result ([None]). *)

From Stdlib Require Import List ZArith Lia Bool String.
Import ListNotations.

Local Open Scope Z_scope.

(** ** C++ types named by the header *)

Inductive ctype : Type :=
| Tvoid
| TJNIEnv_ptr                 (* JNIEnv * *)
| Tjobject
| Tjclass
| Tjstring
| Tjboolean
| Tjbyte
| Tjchar
| Tjshort
| Tjint                       (* jsize is a typedef of jint *)
| Tjlong
| Tjfloat
| Tjdouble
| Tptr (pointee : string).    (* any other object pointer: Class*, char*, void* *)

Definition ctype_eq_dec (a b : ctype) : {a = b} + {a <> b}.
Proof. decide equality; apply string_dec. Defined.

(** [std::is_same_v<A, B>] *)
Definition is_same (a b : ctype) : bool :=
  if ctype_eq_dec a b then true else false.

Definition cstr : Type := option string.
Definition ptr : Type := Z.
Definition nullptr : ptr := 0.

(** ** A state-and-failure monad for the cursors

    An entry point threads an argument cursor of type [C], the trace of
    what it has done so far, and the state [W] the wrapped function acts
    on. *)

Section Machine.
Variables value W : Type.

Inductive event : Type :=
| EvVaArg (k : nat) (T : ctype)   (* k-th va_arg on the va_list, at type T *)
| EvGet (p : nat)                 (* get() handed out the pointer arr + p *)
| EvLoad (p : nat) (T : ctype)    (* *((T* )(arr + p)) *)
| EvCall (args : list value).     (* F(args...) *)

Record machine (C : Type) : Type := Machine {
  cursor : C;
  trace : list event;
  heap : W
}.

Definition M (C A : Type) : Type := machine C -> option (A * machine C).

Definition ret {C A} (a : A) : M C A := fun m => Some (a, m).

Definition bind {C A B} (c : M C A) (k : A -> M C B) : M C B :=
  fun m => match c m with
           | Some (a, m') => k a m'
           | None => None
           end.

Definition undefined {C A} : M C A := fun _ => None.

Definition emit {C} (e : event) : M C unit :=
  fun m => Some (tt, Machine C (cursor C m) (trace C m ++ [e]) (heap C m)).
End Machine.

Arguments EvVaArg {value} k T.
Arguments EvGet {value} p.
Arguments EvLoad {value} p T.
Arguments EvCall {value} args.
Arguments Machine {value W C} cursor trace heap.
Arguments cursor {value W C} m.
Arguments trace {value W C} m.
Arguments heap {value W C} m.
Arguments ret {value W C A} a.
Arguments bind {value W C A B} c k.
Arguments undefined {value W C A}.
Arguments emit {value W C} e.

Notation "x <- c ;; k" := (bind c (fun x => k))
  (at level 61, c at next level, right associativity).
Notation "c ;;; k" := (bind c (fun _ => k))
  (at level 61, right associativity).

(** A pack expansion inside a braced-init-list: one initializer clause per
    element of the pack, each fully evaluated before the next one starts. *)
Fixpoint brace_expand {value W C A B} (clause : A -> M value W C B)
    (pack : list A) : M value W C (list B) :=
  match pack with
  | [] => ret []
  | a :: pack' =>
      b <- clause a ;;
      bs <- brace_expand clause pack' ;;
      ret (b :: bs)
  end.

(** ** The dispatch generator *)

(** The types of [jni.h] that the default argument promotions change:
    [jboolean] (unsigned char), [jbyte] (signed char), [jchar] (unsigned
    short) and [jshort] become [int], [jfloat] becomes [double]. *)
Definition promoted (T : ctype) : bool :=
  match T with
  | Tjboolean | Tjbyte | Tjchar | Tjshort | Tjfloat => true
  | _ => false
  end.

(** No type of the pack is changed by the default argument promotions. *)
Definition unpromoted (Args : list ctype) : bool :=
  forallb (fun T => negb (promoted T)) Args.

Section Dispatch.
Variables value jvalue va_slot W : Type.
(** What [va_arg(va, T)] yields on the slot under the cursor, and what
    reading a [jvalue] slot through a [T*] yields. *)
Variable va_read : ctype -> va_slot -> value.
Variable load : ctype -> jvalue -> value.

(** A function that can be a template argument [F]: its type
    [R(Params...)] and what a call does.  For [R = void] the value
    component of [fn_body] is not observable. *)
Record cfunction : Type := CFunction {
  fn_ret : ctype;
  fn_params : list ctype;
  fn_body : list value -> W -> value * W
}.

(** [get_function_args<F>::sig::args] *)
Definition get_function_args (F : cfunction) : list ctype := fn_params F.

(** The partial specialisation [unwrap<R(Prelude..., Args...)>]: it is
    selected when the parameter list starts with [Prelude], and then
    [Args] is what follows. *)
Fixpoint unwrap (Prelude params : list ctype) : option (list ctype) :=
  match Prelude, params with
  | [], _ => Some params
  | P :: Prelude', A :: params' =>
      if is_same P A then unwrap Prelude' params' else None
  | _ :: _, [] => None
  end.

Definition call {C} (F : cfunction) (args : list value) : M value W C value :=
  fun m =>
    let (r, w') := fn_body F args (heap m) in
    Some (r, Machine (cursor m) (trace m ++ [EvCall args]) w').

(** [struct BraceCall { R ret; BraceCall(Arg... args) : ret(F(args...)) {} }] *)
Definition BraceCall {C} (F : cfunction) (args : list value)
  : M value W C value :=
  r <- call F args ;; ret r.

(** [struct BraceCallVoid { BraceCallVoid(Arg... args) { F(args...); } }] *)
Definition BraceCallVoid {C} (F : cfunction) (args : list value)
  : M value W C unit :=
  call F args ;;; ret tt.

(** The [va_list] cursor: how many arguments were taken, and the slots
    still to come. *)
Definition va_list : Type := (nat * list va_slot)%type.

(** [(T)va_arg(va, T)].  An argument passed through [...] has undergone
    the default argument promotions, so no argument ever has a type that
    those promotions change; asking [va_arg] for such a type is undefined
    (C11 7.16.1.1p2, which C++ adopts), and g++ compiles the read to a
    trap. *)
Definition va_arg (T : ctype) : M value W va_list value :=
  fun m =>
    if promoted T then None
    else
      match cursor m with
      | (k, s :: rest) =>
          Some (va_read T s,
                Machine (S k, rest) (trace m ++ [EvVaArg k T]) (heap m))
      | (_, []) => None
      end.

(** [static R dispatch_v(Prelude... pre_args, va_list va)] *)
Definition dispatch_v (F : cfunction) (Args : list ctype)
    (pre_args : list value) : M value W va_list (option value) :=
  if is_same (fn_ret F) Tvoid then
    args <- brace_expand va_arg Args ;;
    BraceCallVoid F (pre_args ++ args) ;;;
    ret None
  else
    args <- brace_expand va_arg Args ;;
    r <- BraceCall F (pre_args ++ args) ;;
    ret (Some r).

(** [auto get = [&]() { return arr++; };] the cursor is the pointer
    [arr], counted in [jvalue] slots from the start of the array. *)
Definition get : M value W nat nat :=
  fun m =>
    let p := cursor m in
    Some (p, Machine (S p) (trace m ++ [EvGet p]) (heap m)).

(** [*((T* )p)] on the packed array [arr]. *)
Definition deref (arr : list jvalue) (T : ctype) (p : nat)
  : M value W nat value :=
  match nth_error arr p with
  | Some j => emit (EvLoad p T) ;;; ret (load T j)
  | None => undefined
  end.

(** [static R dispatch_a(Prelude... pre_args, jvalue *arr)] *)
Definition dispatch_a (F : cfunction) (Args : list ctype)
    (pre_args : list value) (arr : list jvalue)
  : M value W nat (option value) :=
  if is_same (fn_ret F) Tvoid then
    args <- brace_expand (fun T => p <- get ;; deref arr T p) Args ;;
    BraceCallVoid F (pre_args ++ args) ;;;
    ret None
  else
    args <- brace_expand (fun T => p <- get ;; deref arr T p) Args ;;
    r <- BraceCall F (pre_args ++ args) ;;
    ret (Some r).

(** The two addresses a [dispatch<F, Prelude...>] exposes. *)
Record dispatcher : Type := Dispatcher {
  vargs : list value -> M value W va_list (option value);
  aargs : list value -> list jvalue -> M value W nat (option value)
}.

(** [template <auto F, class... Prelude> struct dispatch]: [sig] names
    [unwrap<decltype of F>], which is a complete type only when the
    specialisation is selected. *)
Definition dispatch (F : cfunction) (Prelude : list ctype)
  : option dispatcher :=
  match unwrap Prelude (fn_params F) with
  | Some Args => Some (Dispatcher (dispatch_v F Args) (dispatch_a F Args))
  | None => None
  end.

(** Entering an entry point: a fresh trace, the caller's cursor. *)
Definition enter {C} (c : C) (w : W) : machine value W C :=
  Machine c [] w.

Definition call_v (F : cfunction) (Args : list ctype)
    (pre_args : list value) (va : list va_slot) (w : W) :=
  dispatch_v F Args pre_args (enter (0%nat, va) w).

Definition call_a (F : cfunction) (Args : list ctype)
    (pre_args : list value) (arr : list jvalue) (w : W) :=
  dispatch_a F Args pre_args arr (enter 0%nat w).
End Dispatch.

Arguments CFunction {value W} fn_ret fn_params fn_body.
Arguments fn_ret {value W} c.
Arguments fn_params {value W} c.
Arguments fn_body {value W} c.
Arguments get_function_args {value W} F.
Arguments call {value W C} F args.
Arguments BraceCall {value W C} F args.
Arguments BraceCallVoid {value W C} F args.
Arguments va_arg {value va_slot W} va_read T.
Arguments dispatch_v {value va_slot W} va_read F Args pre_args.
Arguments get {value W}.
Arguments deref {value jvalue W} load arr T p.
Arguments dispatch_a {value jvalue W} load F Args pre_args arr.
Arguments Dispatcher {value jvalue va_slot W} vargs aargs.
Arguments vargs {value jvalue va_slot W} d.
Arguments aargs {value jvalue va_slot W} d.
Arguments dispatch {value jvalue va_slot W} va_read load F Prelude.
Arguments enter {value W C} c w.
Arguments call_v {value va_slot W} va_read F Args pre_args va w.
Arguments call_a {value jvalue W} load F Args pre_args arr w.

(** ** Descriptors *)

(** Outcome of compiling a registration: the descriptor, or the
    diagnostic that stops the build. *)
Inductive build (A : Type) : Type :=
| Built (a : A)
| StaticAssert (msg : string)
| Incomplete (what : string).

Arguments Built {A} a.
Arguments StaticAssert {A} msg.
Arguments Incomplete {A} what.

Definition is_built {A} (b : build A) : bool :=
  match b with Built _ => true | _ => false end.

(** [std::tuple_element_t<i, args>] *)
Definition tuple_element (i : nat) (args : list ctype) : option ctype :=
  nth_error args i.

Definition element_is (T : ctype) (i : nat) (args : list ctype) : bool :=
  match tuple_element i args with
  | Some A => is_same T A
  | None => false
  end.

Section Descriptors.
Variables value jvalue va_slot W : Type.
Variable va_read : ctype -> va_slot -> value.
Variable load : ctype -> jvalue -> value.

Record ManagedMethod : Type := mkManagedMethod {
  mm_clazz : ptr;
  mm_name : cstr;
  mm_signature : cstr;
  addr_variadic : list value -> M value W (va_list va_slot) (option value);
  addr_array : list value -> list jvalue -> M value W nat (option value)
}.

Definition make_method (clazz : ptr) (name signature : cstr)
    (disp : option (dispatcher value jvalue va_slot W))
  : build ManagedMethod :=
  match disp with
  | Some d => Built (mkManagedMethod clazz name signature (vargs d) (aargs d))
  | None => Incomplete "dispatch<F, Prelude...>::sig"
  end.

(** [ManagedMethod::Register<F>(clazz, name, signature)] *)
Definition Register (F : cfunction value W) (clazz : ptr)
    (name signature : cstr) : build ManagedMethod :=
  let disp := dispatch va_read load F [TJNIEnv_ptr; Tjobject] in
  let args := get_function_args F in
  if negb (2 <=? List.length args)%nat then
    StaticAssert "Invalid number of arguments, expect 2 or more."
  else if negb (element_is TJNIEnv_ptr 0 args) then
    StaticAssert "First Method argument expected JNIEnv *."
  else if negb (element_is Tjobject 1 args) then
    StaticAssert "Second Method argument expected jobject."
  else make_method clazz name signature disp.

(** [ManagedMethod::RegisterStatic<F>(clazz, name, signature)] *)
Definition RegisterStatic (F : cfunction value W) (clazz : ptr)
    (name signature : cstr) : build ManagedMethod :=
  let disp := dispatch va_read load F [TJNIEnv_ptr; Tjclass] in
  let args := get_function_args F in
  if negb (2 <=? List.length args)%nat then
    StaticAssert "Invalid number of arguments, expect 2 or more."
  else if negb (element_is TJNIEnv_ptr 0 args) then
    StaticAssert "First Method argument expected JNIEnv *."
  else if negb (element_is Tjclass 1 args) then
    StaticAssert "Second Method argument expected jclass."
  else make_method clazz name signature disp.

(** [ManagedMethod::RegisterNonVirtual<F>(clazz, name, signature)] *)
Definition RegisterNonVirtual (F : cfunction value W) (clazz : ptr)
    (name signature : cstr) : build ManagedMethod :=
  let disp := dispatch va_read load F [TJNIEnv_ptr; Tjobject; Tjclass] in
  let args := get_function_args F in
  if negb (3 <=? List.length args)%nat then
    StaticAssert "Invalid number of arguments, expect 3 or more."
  else if negb (element_is TJNIEnv_ptr 0 args) then
    StaticAssert "First Method argument expected JNIEnv *."
  else if negb (element_is Tjobject 1 args) then
    StaticAssert "Second Method argument expected jobject."
  else if negb (element_is Tjclass 2 args) then
    StaticAssert "Third Method argument expected jclass."
  else make_method clazz name signature disp.

Record NativeMethod : Type := mkNativeMethod {
  nm_clazz : ptr;
  nm_name : cstr;
  nm_soname : cstr;
  nm_ptr : ptr
}.

(** [offset]: direct address for static fields, offsets for instance
    fields. *)
Record FieldId : Type := mkFieldId {
  f_clazz : ptr;
  f_name : cstr;
  f_signature : cstr;
  f_offset : Z;
  f_is_static : Z
}.

Record Class : Type := mkClass {
  classpath : cstr;
  classname : cstr;
  managed_methods : list ManagedMethod;
  native_methods : list NativeMethod;
  fields : list FieldId;
  instance_size : Z
}.
End Descriptors.

Arguments mkManagedMethod {value jvalue va_slot W}.
Arguments mm_clazz {value jvalue va_slot W} m.
Arguments mm_name {value jvalue va_slot W} m.
Arguments mm_signature {value jvalue va_slot W} m.
Arguments addr_variadic {value jvalue va_slot W} m.
Arguments addr_array {value jvalue va_slot W} m.
Arguments Register {value jvalue va_slot W} va_read load F clazz name signature.
Arguments RegisterStatic {value jvalue va_slot W} va_read load F clazz name signature.
Arguments RegisterNonVirtual {value jvalue va_slot W} va_read load F clazz name signature.
Arguments mkClass {value jvalue va_slot W}.
Arguments classpath {value jvalue va_slot W} c.
Arguments classname {value jvalue va_slot W} c.
Arguments managed_methods {value jvalue va_slot W} c.
Arguments native_methods {value jvalue va_slot W} c.
Arguments fields {value jvalue va_slot W} c.
Arguments instance_size {value jvalue va_slot W} c.

(** ** Object layout

    The registration macros take the address of a member through a null
    object pointer, so what they store is decided by class member lookup
    and by where the compiler puts the member.  Both are modelled for the
    classes this header and its users write: no virtual functions, at
    most one base class, scalar members.

    Lookup of a name in a class finds the member the class itself
    declares, static or not, and only then looks in the base class; a
    declaration in the derived class hides the base's.  The macros are
    expanded where the members they name are accessible (elsewhere the
    expansion does not compile), so access control is no part of the
    model.

    Layout is that of the Itanium C++ ABI, which g++ and clang follow on
    the loader's targets: a non-empty base subobject comes first and
    takes its non-virtual size, an empty base takes no room, and the
    members follow in declaration order, each at the next offset that
    satisfies its alignment.  The non-virtual size of a class is its size
    without tail padding, except for a POD, which keeps its padding. *)

(** [LP64] is the 64-bit targets (AArch64, x86-64); [ILP32] is the 32-bit
    ARM EABI, where 8-byte scalars are 8-byte aligned. *)
Inductive data_model : Type := ILP32 | LP64.

Definition pointer_size (dm : data_model) : Z :=
  match dm with ILP32 => 4 | LP64 => 8 end.

Definition sizeof (dm : data_model) (T : ctype) : Z :=
  match T with
  | Tvoid => 1
  | TJNIEnv_ptr | Tjobject | Tjclass | Tjstring | Tptr _ => pointer_size dm
  | Tjboolean | Tjbyte => 1
  | Tjchar | Tjshort => 2
  | Tjint | Tjfloat => 4
  | Tjlong | Tjdouble => 8
  end.

Definition alignof (dm : data_model) (T : ctype) : Z := sizeof dm T.

(** [(uintptr_t)p] *)
Definition to_uintptr (dm : data_model) (a : Z) : Z :=
  a mod 2 ^ (8 * pointer_size dm).

Record member : Type := Member { m_name : string; m_type : ctype }.

(** A class type: its base class if any, the addresses of its static data
    members, and its non-static data members in declaration order.  A
    class without a base also says whether it is a POD in the sense the
    ABI uses for layout: no user-declared constructor, destructor or copy
    assignment, and no private or protected non-static data member.  A
    class with a base never is. *)
Inductive cxx_class : Type :=
| Struct (pod : bool) (statics : list (string * ptr)) (members : list member)
| Derived (base : cxx_class) (statics : list (string * ptr))
    (members : list member).

Definition class_base (c : cxx_class) : option cxx_class :=
  match c with Struct _ _ _ => None | Derived b _ _ => Some b end.
Definition class_statics (c : cxx_class) : list (string * ptr) :=
  match c with Struct _ s _ | Derived _ s _ => s end.
Definition class_members (c : cxx_class) : list member :=
  match c with Struct _ _ ms | Derived _ _ ms => ms end.

Definition is_pod (c : cxx_class) : bool :=
  match c with Struct pod _ _ => pod | Derived _ _ _ => false end.

(** An empty class: no non-static data member, in it or in its base. *)
Fixpoint is_empty (c : cxx_class) : bool :=
  match c with
  | Struct _ _ [] => true
  | Derived b _ [] => is_empty b
  | _ => false
  end.

Definition align_up (x a : Z) : Z := (x + a - 1) / a * a.

(** Place members one after the other from offset [off]: the offset table
    and the first free offset after the last member. *)
Fixpoint place (dm : data_model) (off : Z) (ms : list member)
  : list (string * Z) * Z :=
  match ms with
  | [] => ([], off)
  | m :: ms' =>
      let o := align_up off (alignof dm (m_type m)) in
      let '(tbl, e) := place dm (o + sizeof dm (m_type m)) ms' in
      ((m_name m, o) :: tbl, e)
  end.

Fixpoint members_align (dm : data_model) (ms : list member) : Z :=
  match ms with
  | [] => 1
  | m :: ms' => Z.max (alignof dm (m_type m)) (members_align dm ms')
  end.

Fixpoint class_align (dm : data_model) (c : cxx_class) : Z :=
  match c with
  | Struct _ _ ms => members_align dm ms
  | Derived b _ ms => Z.max (class_align dm b) (members_align dm ms)
  end.

(** Rounding a size up to a non-zero multiple of the alignment. *)
Definition round_size (raw al : Z) : Z := align_up (Z.max raw 1) al.

(** The size of a class before that rounding.  The members of a derived
    class start at the non-virtual size of a non-empty base, and at
    offset zero over an empty one, which still accounts for one byte. *)
Fixpoint raw_size (dm : data_model) (c : cxx_class) : Z :=
  match c with
  | Struct _ _ ms => snd (place dm 0 ms)
  | Derived b _ ms =>
      if is_empty b then Z.max 1 (snd (place dm 0 ms))
      else
        let nv := if is_pod b
                  then round_size (raw_size dm b) (class_align dm b)
                  else raw_size dm b in
        Z.max nv (snd (place dm nv ms))
  end.

(** [sizeof(clz)] *)
Definition sizeof_class (dm : data_model) (c : cxx_class) : Z :=
  round_size (raw_size dm c) (class_align dm c).

(** The room a class takes as a base subobject. *)
Definition nvsize (dm : data_model) (c : cxx_class) : Z :=
  if is_pod c then sizeof_class dm c else raw_size dm c.

(** The offset from which the members a class declares are placed. *)
Definition members_start (dm : data_model) (c : cxx_class) : Z :=
  match c with
  | Struct _ _ _ => 0
  | Derived b _ _ => if is_empty b then 0 else nvsize dm b
  end.

Fixpoint assoc {A} (k : string) (l : list (string * A)) : option A :=
  match l with
  | [] => None
  | (k', a) :: l' => if String.eqb k k' then Some a else assoc k l'
  end.

Fixpoint assoc_member (k : string) (ms : list member) : option ctype :=
  match ms with
  | [] => None
  | m :: ms' => if String.eqb k (m_name m) then Some (m_type m)
                else assoc_member k ms'
  end.

(** What class member lookup finds for a name: a static data member, with
    its address, or a non-static one, with its declared type. *)
Inductive member_kind : Type :=
| IsStatic (a : ptr)
| IsField (T : ctype).

Fixpoint find_member (c : cxx_class) (field : string) : option member_kind :=
  match c with
  | Struct _ st ms =>
      match assoc field st with
      | Some a => Some (IsStatic a)
      | None => option_map IsField (assoc_member field ms)
      end
  | Derived b st ms =>
      match assoc field st with
      | Some a => Some (IsStatic a)
      | None =>
          match assoc_member field ms with
          | Some T => Some (IsField T)
          | None => find_member b field
          end
      end
  end.

(** The declared type of the non-static data member a name designates. *)
Definition member_type (c : cxx_class) (field : string) : option ctype :=
  match find_member c field with
  | Some (IsField T) => Some T
  | _ => None
  end.

(** Offset of the non-static data member a name designates. *)
Fixpoint offsetof (dm : data_model) (c : cxx_class) (field : string)
  : option Z :=
  match c with
  | Struct _ st ms =>
      match assoc field st with
      | Some _ => None
      | None => assoc field (fst (place dm (members_start dm c) ms))
      end
  | Derived b st ms =>
      match assoc field st with
      | Some _ => None
      | None =>
          match assoc field (fst (place dm (members_start dm c) ms)) with
          | Some o => Some o
          | None => offsetof dm b field
          end
      end
  end.

(** [&clz::field] as an object pointer: the address of a static data
    member.  For a non-static member the expression is a pointer to
    member, which neither converts to an object pointer nor casts to an
    integer. *)
Definition static_address (c : cxx_class) (field : string) : option ptr :=
  match find_member c field with
  | Some (IsStatic a) => Some a
  | _ => None
  end.

(** [&(((clz* )base)->field)]: a non-static member is at its offset from
    [base]; a static member is where it is, whatever the object
    expression. *)
Definition member_address (dm : data_model) (c : cxx_class) (base : ptr)
    (field : string) : option ptr :=
  match offsetof dm c field with
  | Some o => Some (base + o)
  | None => static_address c field
  end.

(** [#define REGISTER_STATIC_FIELD(clz, field)]: a designated initializer
    that names [clazz], [name], [offset] and [is_static]; [signature] is
    not named and is value-initialized. *)
Definition REGISTER_STATIC_FIELD (dm : data_model) (clz : cxx_class)
    (field : string) : option FieldId :=
  match static_address clz "clazz", static_address clz field with
  | Some cl, Some a =>
      Some (mkFieldId cl (Some field) None (to_uintptr dm a) 1)
  | _, _ => None
  end.

(** [#define REGISTER_FIELD(clz, field)] *)
Definition REGISTER_FIELD (dm : data_model) (clz : cxx_class)
    (field : string) : option FieldId :=
  match static_address clz "clazz", member_address dm clz nullptr field with
  | Some cl, Some a =>
      Some (mkFieldId cl (Some field) None (to_uintptr dm a) 0)
  | _, _ => None
  end.

(** The class types the header defines.  [Object] has a user-declared
    constructor, so it is no POD.  [String] derives from [Object]
    privately, which bears on access and not on layout.  None of the
    three declares a static [clazz]. *)
Definition Object_class : cxx_class :=
  Struct false [] [Member "clazz" (Tptr "Class")].

Definition ArrayObject_class : cxx_class :=
  Derived Object_class []
    [Member "instance_clazz" (Tptr "Class");
     Member "count" Tjint;
     Member "element_size" Tjint;
     Member "elements" (Tptr "void")].

Definition String_class : cxx_class :=
  Derived Object_class [] [Member "str" (Tptr "char")].

(** A class that has [Object] as its base, directly or further up. *)
Fixpoint extends_Object (c : cxx_class) : Prop :=
  match c with
  | Struct _ _ _ => False
  | Derived b _ _ => b = Object_class \/ extends_Object b
  end.

(** Where the payload of an instance at [base] starts: right after the
    common [Object] header. *)
Definition payload_start (dm : data_model) (base : ptr) : ptr :=
  base + sizeof_class dm Object_class.

(** ** Instances *)

(** [struct Object { Class *clazz; Object(Class *clz) : clazz(clz) { } }] *)
Record Object : Type := Object_ctor { clazz : ptr }.

Record ArrayObject : Type := mkArrayObject {
  ao_object : Object;
  instance_clazz : ptr;
  count : Z;
  element_size : Z;
  elements : ptr
}.

Record String_object : Type := mkString {
  str_object : Object;
  str : ptr
}.

(** ** [String::operator&] *)

(** An object pointer: the address it holds and the class it claims to
    point to.  A reference is the same thing, the referent's address and
    its static type. *)
Record pointer : Type := Pointer { p_addr : ptr; p_class : string }.
Record reference : Type := Reference { r_addr : ptr; r_class : string }.

(** Built-in unary [&] on an lvalue. *)
Definition addressof (r : reference) : pointer :=
  Pointer (r_addr r) (r_class r).

(** [(T* )p] between pointers to unrelated classes. *)
Definition reinterpret (T : string) (p : pointer) : pointer :=
  Pointer (p_addr p) T.

(** [friend String* operator&(_jstring& jstr) { return (String* )&jstr; }]
    The friend is declared only inside [String], which is not an
    associated class of [_jstring], so the [&] in its body is the
    built-in one. *)
Definition String_operator_addr (jstr : reference) : pointer :=
  reinterpret "String" (addressof jstr).

(** ** The class registry and descriptor lookup

    The header only declares [ClassRegistry]; its two functions are
    defined elsewhere in the repository. *)

Definition cstr_eqb (a b : cstr) : bool :=
  match a, b with
  | Some x, Some y => String.eqb x y
  | None, None => true
  | _, _ => false
  end.

Section Registry.
Variables value jvalue va_slot W : Type.

(** One [const Class *] held by the registry: the address, and the
    descriptor found there (descriptors are never modified once
    emitted). *)
Record class_ref : Type := ClassRef {
  ref_addr : ptr;
  ref_class : Class value jvalue va_slot W
}.

(** The [std::vector<const Class*>] behind [get_class_registry]. *)
Definition class_registry : Type := list class_ref.

Definition class_key (c : class_ref) : cstr * cstr :=
  (classpath (ref_class c), classname (ref_class c)).

Definition same_key (a b : class_ref) : bool :=
  cstr_eqb (classpath (ref_class a)) (classpath (ref_class b))
  && cstr_eqb (classname (ref_class a)) (classname (ref_class b)).

Definition REGISTERED : Z := 0.
Definition DUPLICATE : Z := -1.

(** Modelled from the spec: the body of [ClassRegistry::register_class]
    is not in the header.  Section 4.4: "register(Class) appends a
    descriptor and must reject (or otherwise flag) an attempt to register
    a duplicate (classpath, classname) pair".  The declared result is an
    [int]; the spec fixes no values, so the model answers [REGISTERED]
    when the descriptor was appended and [DUPLICATE] when it was
    rejected. *)
Definition register_class (clazz : class_ref) (r : class_registry)
  : class_registry * Z :=
  if existsb (same_key clazz) r then (r, DUPLICATE)
  else (r ++ [clazz], REGISTERED).

(** Modelled from the spec: the body of
    [ClassRegistry::get_class_registry] is not in the header.  Section
    4.4: "enumerate() exposes the full ordered collection for read-only
    iteration". *)
Definition get_class_registry (r : class_registry) : list class_ref := r.

(** Registering a sequence of descriptors one after the other, as static
    initialisation does; the answers are collected in order. *)
Fixpoint register_all (cs : list class_ref) (r : class_registry)
  : class_registry * list Z :=
  match cs with
  | [] => (r, [])
  | c :: cs' =>
      let '(r1, a) := register_class c r in
      let '(r2, answers) := register_all cs' r1 in
      (r2, a :: answers)
  end.

(** [p] is one of the registered [Class] pointers. *)
Definition registered (r : class_registry) (p : ptr) : Prop :=
  In p (map ref_addr r).

(** The invariant the data model asks of every instance header. *)
Definition object_invariant (r : class_registry) (o : Object) : Prop :=
  clazz o <> nullptr /\ registered r (clazz o).
End Registry.

Arguments ClassRef {value jvalue va_slot W} ref_addr ref_class.
Arguments ref_addr {value jvalue va_slot W} c.
Arguments ref_class {value jvalue va_slot W} c.
Arguments class_key {value jvalue va_slot W} c.
Arguments same_key {value jvalue va_slot W} a b.
Arguments register_class {value jvalue va_slot W} clazz r.
Arguments get_class_registry {value jvalue va_slot W} r.
Arguments register_all {value jvalue va_slot W} cs r.
Arguments registered {value jvalue va_slot W} r p.
Arguments object_invariant {value jvalue va_slot W} r o.

(** Modelled from the spec: no lookup function is in the header.  Section
    6: "every lookup is keyed by exact string equality on (classpath,
    classname, member name, signature string)".  A key string is compared
    with the string a descriptor's pointer designates; a null pointer
    designates no string. *)
Definition key_equals (key : string) (s : cstr) : bool :=
  match s with
  | Some s' => String.eqb key s'
  | None => false
  end.

(** Modelled from the spec: the member-name and signature part of that
    lookup, on one [FieldId]. *)
Definition field_matches (name signature : string) (f : FieldId) : bool :=
  key_equals name (f_name f) && key_equals signature (f_signature f).

(** Modelled from the spec: the first field of a table that the key
    selects. *)
Definition find_field (name signature : string) (fs : list FieldId)
  : option FieldId :=
  find (field_matches name signature) fs.

(** ** Vocabulary of the statements *)

(** Decode slots pairwise with the types of a pack. *)
Fixpoint decode {value slot} (read : ctype -> slot -> value)
    (Args : list ctype) (slots : list slot) : list value :=
  match Args, slots with
  | T :: Args', s :: slots' => read T s :: decode read Args' slots'
  | _, _ => []
  end.

(** The extraction events of a pack, in declaration order, starting at
    cursor position [k]. *)
Fixpoint va_events {value} (k : nat) (Args : list ctype) : list (event value) :=
  match Args with
  | [] => []
  | T :: Args' => EvVaArg k T :: va_events (S k) Args'
  end.

Fixpoint arr_events {value} (p : nat) (Args : list ctype) : list (event value) :=
  match Args with
  | [] => []
  | T :: Args' => EvGet p :: EvLoad p T :: arr_events (S p) Args'
  end.

(** The calls of the wrapped function recorded in a trace. *)
Fixpoint calls {value} (t : list (event value)) : list (list value) :=
  match t with
  | [] => []
  | EvCall args :: t' => args :: calls t'
  | _ :: t' => calls t'
  end.

(** What an entry point hands back for a function of return type [R]
    whose call produced [r]. *)
Definition returned {value} (R : ctype) (r : value) : option value :=
  if is_same R Tvoid then None else Some r.

(** A parameter list starts with the prelude of a calling shape: it is at
    least as long, and its leading types are the prelude's, in order. *)
Definition has_prelude (Prelude params : list ctype) : Prop :=
  (List.length Prelude <= List.length params)%nat
  /\ firstn (List.length Prelude) params = Prelude.

(** The claim that a registered instance offset is counted from the
    payload area of the object. *)
Definition offset_from_payload (dm : data_model) (clz : cxx_class)
    (field : string) (fid : FieldId) : Prop :=
  forall base,
    member_address dm clz base field
    = Some (payload_start dm base + f_offset fid).

(** The three calling shapes a managed method can be registered with,
    the prelude each one fixes, and the registration function of each. *)
Inductive shape : Type := Virtual | Static | NonVirtual.

Definition shape_prelude (s : shape) : list ctype :=
  match s with
  | Virtual => [TJNIEnv_ptr; Tjobject]
  | Static => [TJNIEnv_ptr; Tjclass]
  | NonVirtual => [TJNIEnv_ptr; Tjobject; Tjclass]
  end.

Definition register_as {value jvalue va_slot W} (s : shape)
    (va_read : ctype -> va_slot -> value) (load : ctype -> jvalue -> value)
    (F : cfunction value W) (clazz : ptr) (name signature : cstr)
  : build (ManagedMethod value jvalue va_slot W) :=
  match s with
  | Virtual => Register va_read load F clazz name signature
  | Static => RegisterStatic va_read load F clazz name signature
  | NonVirtual => RegisterNonVirtual va_read load F clazz name signature
  end.

(** ** A concrete target for examples

    Values and slots are bit patterns; a slot read at type [T] gives its
    low [sizeof T] bytes as a value of that type (two's complement for
    the signed integer types), as on the little-endian targets of the
    loader.  The state records the calls made. *)
Definition signed_type (T : ctype) : bool :=
  match T with
  | Tjbyte | Tjshort | Tjint | Tjlong => true
  | _ => false
  end.

Definition low_bytes (dm : data_model) (T : ctype) (slot : Z) : Z :=
  let w := 8 * sizeof dm T in
  let u := slot mod 2 ^ w in
  if signed_type T && (2 ^ (w - 1) <=? u) then u - 2 ^ w else u.

Definition sum_args : cfunction Z (list (list Z)) :=
  CFunction Tjint [TJNIEnv_ptr; Tjobject; Tjint; Tjbyte; Tjlong]
    (fun args w => (fold_right Z.add 0 args, args :: w)).

Definition note_args : cfunction Z (list (list Z)) :=
  CFunction Tvoid [TJNIEnv_ptr; Tjobject; Tjint; Tjbyte; Tjlong]
    (fun args w => (0, args :: w)).

(** Two functions whose parameters pass through [...] unchanged. *)
Definition sum_wide : cfunction Z (list (list Z)) :=
  CFunction Tjlong [TJNIEnv_ptr; Tjobject; Tjint; Tjlong; Tjobject]
    (fun args w => (fold_right Z.add 0 args, args :: w)).

Definition note_wide : cfunction Z (list (list Z)) :=
  CFunction Tvoid [TJNIEnv_ptr; Tjclass; Tjint; Tjlong]
    (fun args w => (0, args :: w)).

Definition sample_class (path name : string)
  : Class Z Z Z (list (list Z)) :=
  mkClass (Some path) (Some name) [] [] [] 16.

(** A function of the non-virtual shape. *)
Definition super_sum : cfunction Z (list (list Z)) :=
  CFunction Tjint [TJNIEnv_ptr; Tjobject; Tjclass; Tjint; Tjshort]
    (fun args w => (fold_right Z.add 0 args, args :: w)).

(** A class with a static data member next to its descriptor. *)
Definition Counter_class : cxx_class :=
  Struct true [("clazz"%string, 12288); ("instances"%string, 20480)]
         [Member "id" Tjint; Member "total" Tjlong].

(** A class written the way the field macros expect: [Object] as its
    base, a static [clazz] descriptor of its own, and two fields. *)
Definition Point_class : cxx_class :=
  Derived Object_class [("clazz"%string, 4096)]
    [Member "x" Tjint; Member "y" Tjint].

Definition sample_registry : class_registry Z Z Z (list (list Z)) :=
  [ClassRef 4096 (sample_class "java/lang" "String");
   ClassRef 8192 (sample_class "java/lang" "Object")].

(** * Properties *)

(** ** Template matching *)

Lemma is_same_true (a b : ctype) : is_same a b = true <-> a = b.
Proof.
  unfold is_same. destruct (ctype_eq_dec a b); split; congruence.
Qed.

Lemma is_same_refl (a : ctype) : is_same a a = true.
Proof. now apply is_same_true. Qed.

Lemma unwrap_prefix (Prelude params Args : list ctype) :
  unwrap Prelude params = Some Args <-> params = Prelude ++ Args.
Proof.
  revert params. induction Prelude as [|P Prelude IH]; intros params; simpl.
  - split; congruence.
  - destruct params as [|A params].
    + split; discriminate.
    + destruct (is_same P A) eqn:E.
      * apply is_same_true in E. subst A. rewrite IH. split; congruence.
      * split; [discriminate|].
        intros H. injection H as HA _. subst A.
        rewrite is_same_refl in E. discriminate.
Qed.

(** ** The two extraction loops *)

Section DispatchFacts.
Context {value jvalue va_slot W : Type}.
Variable va_read : ctype -> va_slot -> value.
Variable load : ctype -> jvalue -> value.

Lemma expand_va_arg (Args : list ctype) :
  forall (k : nat) (va : list va_slot) (t : list (event value)) (w : W),
    unpromoted Args = true ->
    (List.length Args <= List.length va)%nat ->
    brace_expand (va_arg va_read) Args (Machine (k, va) t w)
    = Some (decode va_read Args va,
            Machine (k + List.length Args, skipn (List.length Args) va)%nat
                    (t ++ va_events k Args) w).
Proof.
  induction Args as [|T Args IH]; intros k va t w Hun Hlen.
  - simpl. unfold ret. now rewrite Nat.add_0_r, app_nil_r.
  - destruct va as [|s va]; [simpl in Hlen; lia|].
    cbn [unpromoted forallb] in Hun. apply andb_true_iff in Hun.
    destruct Hun as [HT Hun]. apply negb_true_iff in HT.
    simpl in Hlen. cbn [brace_expand]. unfold bind at 1.
    unfold va_arg at 1. rewrite HT. cbn [cursor trace heap].
    unfold bind at 1. rewrite IH by (assumption || lia).
    unfold ret. cbn [decode va_events skipn List.length].
    rewrite <- app_assoc. cbn [app].
    now rewrite Nat.add_succ_r.
Qed.

(** The variadic loop never gets past a parameter whose type the default
    argument promotions change. *)
Lemma expand_va_arg_promoted (Args : list ctype) :
  forall (m : machine value W (va_list va_slot)),
    unpromoted Args = false ->
    brace_expand (va_arg va_read) Args m = None.
Proof.
  induction Args as [|T Args IH]; intros m Hun; [discriminate|].
  cbn [unpromoted forallb] in Hun. cbn [brace_expand]. unfold bind at 1.
  unfold va_arg at 1.
  destruct (promoted T) eqn:HT; [reflexivity|].
  cbn [negb andb] in Hun.
  destruct (cursor m) as [k [|s rest]]; [reflexivity|].
  unfold bind at 1. now rewrite IH.
Qed.

Lemma expand_get (arr : list jvalue) (Args : list ctype) :
  forall (p : nat) (t : list (event value)) (w : W),
    (p + List.length Args <= List.length arr)%nat ->
    brace_expand (fun T => q <- get ;; deref load arr T q) Args
                 (Machine p t w)
    = Some (decode load Args (skipn p arr),
            Machine (p + List.length Args)%nat (t ++ arr_events p Args) w).
Proof.
  induction Args as [|T Args IH]; intros p t w Hlen.
  - simpl. unfold ret. now rewrite Nat.add_0_r, app_nil_r.
  - simpl in Hlen. cbn [brace_expand]. unfold bind at 1.
    unfold bind at 1. unfold get at 1. cbn [cursor trace heap].
    unfold deref.
    destruct (nth_error arr p) as [j|] eqn:Hj.
    2:{ apply nth_error_None in Hj. lia. }
    unfold bind at 1. unfold emit, ret at 1. cbn [cursor trace heap].
    unfold bind at 1. rewrite IH by lia. unfold ret.
    assert (Hs : skipn p arr = j :: skipn (S p) arr).
    { clear -Hj. revert arr Hj. induction p as [|p IHp]; intros [|a arr] Hj;
        simpl in *; try discriminate.
      - congruence.
      - now apply IHp. }
    rewrite Hs. cbn [decode arr_events List.length].
    rewrite <- !app_assoc. cbn [app].
    now rewrite Nat.add_succ_r.
Qed.
End DispatchFacts.

(** ** What one invocation of an entry point does *)

Section EntryPoints.
Context {value jvalue va_slot W : Type}.
Variable va_read : ctype -> va_slot -> value.
Variable load : ctype -> jvalue -> value.

Lemma call_v_run (F : cfunction value W) (Args : list ctype)
    (pre : list value) (va : list va_slot) (w : W) :
  unpromoted Args = true ->
  (List.length Args <= List.length va)%nat ->
  let args := pre ++ decode va_read Args va in
  call_v va_read F Args pre va w
  = Some (returned (fn_ret F) (fst (fn_body F args w)),
          Machine (List.length Args, skipn (List.length Args) va)
                  (va_events 0 Args ++ [EvCall args])
                  (snd (fn_body F args w))).
Proof.
  intros Hun Hlen args. unfold call_v, dispatch_v, returned, enter.
  destruct (is_same (fn_ret F) Tvoid);
    unfold bind at 1; rewrite (expand_va_arg va_read) by assumption;
    unfold BraceCall, BraceCallVoid, bind, call, ret; cbn [cursor trace heap];
    fold args; destruct (fn_body F args w) as [r w']; reflexivity.
Qed.

Lemma call_v_promoted (F : cfunction value W) (Args : list ctype)
    (pre : list value) (va : list va_slot) (w : W) :
  unpromoted Args = false ->
  call_v va_read F Args pre va w = None.
Proof.
  intros Hun. unfold call_v, dispatch_v.
  destruct (is_same (fn_ret F) Tvoid);
    unfold bind at 1; now rewrite (expand_va_arg_promoted va_read).
Qed.

Lemma call_a_run (F : cfunction value W) (Args : list ctype)
    (pre : list value) (arr : list jvalue) (w : W) :
  (List.length Args <= List.length arr)%nat ->
  let args := pre ++ decode load Args arr in
  call_a load F Args pre arr w
  = Some (returned (fn_ret F) (fst (fn_body F args w)),
          Machine (List.length Args)
                  (arr_events 0 Args ++ [EvCall args])
                  (snd (fn_body F args w))).
Proof.
  intros Hlen args. unfold call_a, dispatch_a, returned, enter.
  destruct (is_same (fn_ret F) Tvoid);
    unfold bind at 1; rewrite (expand_get load) by exact Hlen;
    unfold BraceCall, BraceCallVoid, bind, call, ret; cbn [cursor trace heap];
    cbn [skipn]; fold args; destruct (fn_body F args w) as [r w']; reflexivity.
Qed.

Lemma calls_app (t1 t2 : list (event value)) :
  calls (t1 ++ t2) = calls t1 ++ calls t2.
Proof.
  induction t1 as [|e t1 IH]; [reflexivity|].
  destruct e; simpl; now rewrite ?IH.
Qed.

Lemma calls_va_events (k : nat) (Args : list ctype) :
  calls (va_events (value:=value) k Args) = [].
Proof. revert k. induction Args; intros k; simpl; auto. Qed.

Lemma calls_arr_events (p : nat) (Args : list ctype) :
  calls (arr_events (value:=value) p Args) = [].
Proof. revert p. induction Args; intros p; simpl; auto. Qed.

Lemma dispatch_inv (F : cfunction value W) (Prelude : list ctype)
    (d : dispatcher value jvalue va_slot W) :
  dispatch va_read load F Prelude = Some d ->
  exists Args,
    fn_params F = Prelude ++ Args
    /\ vargs d = dispatch_v va_read F Args
    /\ aargs d = dispatch_a load F Args.
Proof.
  unfold dispatch. destruct (unwrap Prelude (fn_params F)) as [Args|] eqn:E;
    [|discriminate].
  intros H. injection H as <-. exists Args.
  apply unwrap_prefix in E. now repeat split.
Qed.

Lemma dispatch_of_prefix (F : cfunction value W) (Prelude Args : list ctype) :
  fn_params F = Prelude ++ Args ->
  dispatch va_read load F Prelude
  = Some (Dispatcher (dispatch_v va_read F Args) (dispatch_a load F Args)).
Proof.
  intros H. apply unwrap_prefix in H. unfold dispatch. now rewrite H.
Qed.
End EntryPoints.

Lemma decode_nth {value slot} (read : ctype -> slot -> value)
    (Args : list ctype) (slots : list slot) (i : nat) (T : ctype) (s : slot) :
  nth_error Args i = Some T ->
  nth_error slots i = Some s ->
  nth_error (decode read Args slots) i = Some (read T s).
Proof.
  revert slots i. induction Args as [|A Args IH]; intros slots i HT Hs.
  - destruct i; discriminate.
  - destruct slots as [|x slots]; [destruct i; discriminate|].
    destruct i as [|i]; simpl in *.
    + congruence.
    + now apply IH.
Qed.

Lemma decode_app {value slot} (read : ctype -> slot -> value)
    (Args : list ctype) (used rest : list slot) :
  List.length used = List.length Args ->
  decode read Args (used ++ rest) = decode read Args used.
Proof.
  revert used. induction Args as [|T Args IH]; intros used Hlen.
  - destruct used; [reflexivity|discriminate].
  - destruct used as [|s used]; [discriminate|].
    simpl in *. f_equal. apply IH. lia.
Qed.

(** ** The variadic entry point and the default argument promotions

    [dispatch_v] asks [va_arg] for each parameter type as declared.  For
    a parameter of type [jboolean], [jbyte], [jchar], [jshort] or
    [jfloat] that read is undefined, whatever the caller passed; the
    array entry point reads the same parameter from its [jvalue] slot
    without trouble. *)

Section PromotedParameters.
Context {value jvalue va_slot W : Type}.
Variable va_read : ctype -> va_slot -> value.
Variable load : ctype -> jvalue -> value.

(** C1 does not hold of the variadic entry point.  For a function with a
    remaining parameter whose type the default argument promotions
    change, both entry points are generated, but no invocation of the
    variadic one completes its extractions or reaches [F], on any
    [va_list]; the array one does what the claim says: one extraction
    per remaining parameter, left to right, then [F] called on the
    prelude values followed by the extracted values, whose result and
    effect are those of [F]. *)
Theorem dispatch_v_stops_at_promoted_parameter
    (F : cfunction value W) (Prelude Args : list ctype)
    (pre : list value) (arr : list jvalue) (w : W) :
  fn_params F = Prelude ++ Args ->
  unpromoted Args = false ->
  (List.length Args <= List.length arr)%nat ->
  exists d ma,
    dispatch va_read load F Prelude = Some d
    /\ (forall va, vargs d pre (enter (0%nat, va) w) = None)
    /\ aargs d pre arr (enter 0%nat w)
       = Some (returned (fn_ret F)
                 (fst (fn_body F (pre ++ decode load Args arr) w)), ma)
    /\ trace ma = arr_events 0 Args ++ [EvCall (pre ++ decode load Args arr)]
    /\ heap ma = snd (fn_body F (pre ++ decode load Args arr) w).
Proof.
  intros Hsig Hun Harr.
  rewrite (dispatch_of_prefix va_read load F Prelude Args Hsig).
  pose proof (call_a_run load F Args pre arr w Harr) as Ha.
  cbv zeta in Ha. unfold call_a in Ha.
  eexists. eexists. split; [reflexivity|]. cbn [vargs aargs].
  split.
  - intros va. exact (call_v_promoted va_read F Args pre va w Hun).
  - split; [exact Ha|]. now split.
Qed.

(** C2 does not hold.  For a function with a remaining parameter whose
    type the default argument promotions change, and a [va_list] and a
    packed array that carry the same argument values, the variadic entry
    point has no result while the array entry point calls [F] and
    returns what it returned. *)
Theorem entry_points_disagree_at_promoted_parameter
    (F : cfunction value W) (Prelude Args : list ctype)
    (pre : list value) (va : list va_slot) (arr : list jvalue) (w : W) :
  fn_params F = Prelude ++ Args ->
  unpromoted Args = false ->
  (List.length Args <= List.length va)%nat ->
  (List.length Args <= List.length arr)%nat ->
  decode va_read Args va = decode load Args arr ->
  exists d ma,
    dispatch va_read load F Prelude = Some d
    /\ vargs d pre (enter (0%nat, va) w) = None
    /\ aargs d pre arr (enter 0%nat w)
       = Some (returned (fn_ret F)
                 (fst (fn_body F (pre ++ decode va_read Args va) w)), ma)
    /\ heap ma = snd (fn_body F (pre ++ decode va_read Args va) w).
Proof.
  intros Hsig Hun _ Harr Hsame.
  rewrite (dispatch_of_prefix va_read load F Prelude Args Hsig).
  pose proof (call_a_run load F Args pre arr w Harr) as Ha.
  cbv zeta in Ha. unfold call_a in Ha. rewrite <- Hsame in Ha.
  eexists. eexists. split; [reflexivity|]. cbn [vargs aargs].
  split; [exact (call_v_promoted va_read F Args pre va w Hun)|].
  split; [exact Ha|reflexivity].
Qed.

(** C3 does not hold of the variadic entry point.  For a function with a
    remaining parameter whose type the default argument promotions
    change, an invocation of the variadic entry point ends before [F] is
    called, for a [void] function as for any other; the array entry
    point calls [F] exactly once, with the effect of that one call, and
    returns nothing for [void] and the result of [F] otherwise. *)
Theorem dispatch_v_misses_call_at_promoted_parameter
    (F : cfunction value W) (Prelude Args : list ctype)
    (pre : list value) (va : list va_slot) (arr : list jvalue) (w : W) :
  fn_params F = Prelude ++ Args ->
  unpromoted Args = false ->
  (List.length Args <= List.length va)%nat ->
  (List.length Args <= List.length arr)%nat ->
  exists d ra ma,
    dispatch va_read load F Prelude = Some d
    /\ vargs d pre (enter (0%nat, va) w) = None
    /\ aargs d pre arr (enter 0%nat w) = Some (ra, ma)
    /\ calls (trace ma) = [pre ++ decode load Args arr]
    /\ heap ma = snd (fn_body F (pre ++ decode load Args arr) w)
    /\ (fn_ret F = Tvoid -> ra = None)
    /\ (fn_ret F <> Tvoid ->
        ra = Some (fst (fn_body F (pre ++ decode load Args arr) w))).
Proof.
  intros Hsig Hun _ Harr.
  rewrite (dispatch_of_prefix va_read load F Prelude Args Hsig).
  pose proof (call_a_run load F Args pre arr w Harr) as Ha.
  cbv zeta in Ha. unfold call_a in Ha.
  eexists. eexists. eexists. split; [reflexivity|]. cbn [vargs aargs].
  split; [exact (call_v_promoted va_read F Args pre va w Hun)|].
  split; [exact Ha|]. cbn [trace heap].
  rewrite calls_app, calls_arr_events. cbn [calls app].
  split; [reflexivity|]. split; [reflexivity|].
  unfold returned. split.
  - intros ->. now rewrite is_same_refl.
  - intros Hnv. destruct (is_same (fn_ret F) Tvoid) eqn:E; [|reflexivity].
    apply is_same_true in E. contradiction.
Qed.
End PromotedParameters.

Lemma dispatch_v_stops_at_promoted_parameter_witness :
  fn_params sum_args = [TJNIEnv_ptr; Tjobject] ++ [Tjint; Tjbyte; Tjlong]
  /\ unpromoted [Tjint; Tjbyte; Tjlong] = false
  /\ exists d ma,
      dispatch (low_bytes LP64) (low_bytes LP64) sum_args [TJNIEnv_ptr; Tjobject]
      = Some d
      /\ vargs d [100; 200] (enter (0%nat, [7; 258; 9]) []) = None
      /\ aargs d [100; 200] [7; 258; 9] (enter 0%nat []) = Some (Some 318, ma)
      /\ trace ma = [EvGet 0; EvLoad 0 Tjint; EvGet 1; EvLoad 1 Tjbyte;
                     EvGet 2; EvLoad 2 Tjlong; EvCall [100; 200; 7; 2; 9]]
      /\ heap ma = [[100; 200; 7; 2; 9]].
Proof.
  split; [reflexivity|]. split; [reflexivity|].
  destruct (dispatch_v_stops_at_promoted_parameter
              (low_bytes LP64) (low_bytes LP64) sum_args
              [TJNIEnv_ptr; Tjobject] [Tjint; Tjbyte; Tjlong]
              [100; 200] [7; 258; 9] [])
    as (d & ma & Hd & Hv & Ha & Ht & Hh);
    [reflexivity | reflexivity | simpl; lia |].
  exists d, ma. split; [exact Hd|]. split; [apply Hv|].
  split; [exact Ha|]. split; [exact Ht|exact Hh].
Defined.

Lemma entry_points_disagree_at_promoted_parameter_witness :
  unpromoted [Tjint; Tjbyte; Tjlong] = false
  /\ decode (low_bytes LP64) [Tjint; Tjbyte; Tjlong] [7; 258; 9]
     = decode (low_bytes LP64) [Tjint; Tjbyte; Tjlong] [7; 2; 9]
  /\ exists d ma,
      dispatch (low_bytes LP64) (low_bytes LP64) sum_args [TJNIEnv_ptr; Tjobject]
      = Some d
      /\ vargs d [100; 200] (enter (0%nat, [7; 258; 9]) []) = None
      /\ aargs d [100; 200] [7; 2; 9] (enter 0%nat []) = Some (Some 318, ma)
      /\ heap ma = [[100; 200; 7; 2; 9]].
Proof.
  split; [reflexivity|]. split; [reflexivity|].
  apply (entry_points_disagree_at_promoted_parameter
           (low_bytes LP64) (low_bytes LP64) sum_args
           [TJNIEnv_ptr; Tjobject] [Tjint; Tjbyte; Tjlong]
           [100; 200] [7; 258; 9] [7; 2; 9] []);
    [reflexivity | reflexivity | simpl; lia | simpl; lia | reflexivity].
Defined.

Lemma dispatch_v_misses_call_at_promoted_parameter_witness :
  fn_ret note_args = Tvoid
  /\ unpromoted [Tjint; Tjbyte; Tjlong] = false
  /\ exists d ra ma,
      dispatch (low_bytes LP64) (low_bytes LP64) note_args [TJNIEnv_ptr; Tjobject]
      = Some d
      /\ vargs d [100; 200] (enter (0%nat, [7; 258; 9]) []) = None
      /\ aargs d [100; 200] [7; 258; 9] (enter 0%nat []) = Some (ra, ma)
      /\ calls (trace ma) = [[100; 200; 7; 2; 9]]
      /\ heap ma = [[100; 200; 7; 2; 9]]
      /\ ra = None.
Proof.
  split; [reflexivity|]. split; [reflexivity|].
  destruct (dispatch_v_misses_call_at_promoted_parameter
              (low_bytes LP64) (low_bytes LP64) note_args
              [TJNIEnv_ptr; Tjobject] [Tjint; Tjbyte; Tjlong]
              [100; 200] [7; 258; 9] [7; 258; 9] [])
    as (d & ra & ma & Hd & Hv & Ha & Hc & Hh & Hvoid & _);
    [reflexivity | reflexivity | simpl; lia | simpl; lia |].
  exists d, ra, ma. repeat split; try assumption. now apply Hvoid.
Defined.
(** ** Registration *)

Lemma has_prelude_split (Prelude params : list ctype) :
  has_prelude Prelude params <-> exists Args, params = Prelude ++ Args.
Proof.
  unfold has_prelude. split.
  - intros [_ H]. exists (skipn (List.length Prelude) params).
    rewrite <- H at 1. symmetry. apply firstn_skipn.
  - intros [Args ->]. split.
    + rewrite length_app. lia.
    + rewrite firstn_app, Nat.sub_diag, firstn_all. simpl. apply app_nil_r.
Qed.

Lemma element_is_true (T : ctype) (i : nat) (args : list ctype) :
  element_is T i args = true <-> nth_error args i = Some T.
Proof.
  unfold element_is, tuple_element.
  destruct (nth_error args i) as [A|].
  - rewrite is_same_true. split; congruence.
  - split; discriminate.
Qed.

Section RegistrationClaims.
Context {value jvalue va_slot W : Type}.
Variable va_read : ctype -> va_slot -> value.
Variable load : ctype -> jvalue -> value.

Lemma make_method_dispatch (F : cfunction value W) (Prelude : list ctype)
    (clazz : ptr) (name signature : cstr) :
  has_prelude Prelude (fn_params F) ->
  exists d,
    dispatch va_read load F Prelude = Some d
    /\ make_method value jvalue va_slot W clazz name signature
         (dispatch va_read load F Prelude)
       = Built (mkManagedMethod clazz name signature (vargs d) (aargs d)).
Proof.
  intros H. apply has_prelude_split in H. destruct H as [Args H].
  apply unwrap_prefix in H. unfold dispatch. rewrite H.
  eexists. split; reflexivity.
Qed.

(** C4.  Each of the three registration functions yields a descriptor
    exactly when the parameter list of [F] starts with the prelude of
    its shape; in every other case (too few parameters, or a leading
    type that differs) the outcome is a failed [static_assert], that is,
    the build stops and no descriptor or entry point exists to run.  On
    success the descriptor carries the class, name and signature given
    and the two entry points generated for that prelude. *)
Theorem registration_enforces_prelude
    (F : cfunction value W) (clazz : ptr) (name signature : cstr) :
  let outcome_for Prelude (outcome : build (ManagedMethod value jvalue va_slot W)) :=
    (has_prelude Prelude (fn_params F) /\
     exists d,
       dispatch va_read load F Prelude = Some d
       /\ outcome
          = Built (mkManagedMethod clazz name signature (vargs d) (aargs d)))
    \/ (~ has_prelude Prelude (fn_params F) /\
        exists msg, outcome = StaticAssert msg) in
  outcome_for [TJNIEnv_ptr; Tjobject]
    (Register va_read load F clazz name signature)
  /\ outcome_for [TJNIEnv_ptr; Tjclass]
       (RegisterStatic va_read load F clazz name signature)
  /\ outcome_for [TJNIEnv_ptr; Tjobject; Tjclass]
       (RegisterNonVirtual va_read load F clazz name signature).
Proof.
  cbv zeta.
  assert (Hno : forall Prelude, ~ (exists Args, fn_params F = Prelude ++ Args) ->
                                ~ has_prelude Prelude (fn_params F)).
  { intros P Hn Hp. apply Hn. now apply has_prelude_split. }
  split; [|split].
  - unfold Register, get_function_args.
    destruct (fn_params F) as [|A [|B rest]] eqn:E; cbn [List.length Nat.leb negb].
    + right. split; [|eauto]. apply Hno. intros [Args H]. discriminate.
    + right. split; [|eauto]. apply Hno. intros [Args H]. discriminate.
    + destruct (element_is TJNIEnv_ptr 0 (A :: B :: rest)) eqn:E0; cbn [negb].
      2:{ right. split; [|eauto]. apply Hno. intros [Args H].
          injection H as -> _ _. cbn in E0. discriminate. }
      destruct (element_is Tjobject 1 (A :: B :: rest)) eqn:E1; cbn [negb].
      2:{ right. split; [|eauto]. apply Hno. intros [Args H].
          injection H as _ -> _. cbn in E1. discriminate. }
      apply element_is_true in E0, E1. cbn in E0, E1.
      injection E0 as ->. injection E1 as ->.
      assert (Hp : has_prelude [TJNIEnv_ptr; Tjobject] (fn_params F)).
      { apply has_prelude_split. exists rest. now rewrite E. }
      left. rewrite <- E. split; [exact Hp|].
      now apply make_method_dispatch.
  - unfold RegisterStatic, get_function_args.
    destruct (fn_params F) as [|A [|B rest]] eqn:E; cbn [List.length Nat.leb negb].
    + right. split; [|eauto]. apply Hno. intros [Args H]. discriminate.
    + right. split; [|eauto]. apply Hno. intros [Args H]. discriminate.
    + destruct (element_is TJNIEnv_ptr 0 (A :: B :: rest)) eqn:E0; cbn [negb].
      2:{ right. split; [|eauto]. apply Hno. intros [Args H].
          injection H as -> _ _. cbn in E0. discriminate. }
      destruct (element_is Tjclass 1 (A :: B :: rest)) eqn:E1; cbn [negb].
      2:{ right. split; [|eauto]. apply Hno. intros [Args H].
          injection H as _ -> _. cbn in E1. discriminate. }
      apply element_is_true in E0, E1. cbn in E0, E1.
      injection E0 as ->. injection E1 as ->.
      assert (Hp : has_prelude [TJNIEnv_ptr; Tjclass] (fn_params F)).
      { apply has_prelude_split. exists rest. now rewrite E. }
      left. rewrite <- E. split; [exact Hp|].
      now apply make_method_dispatch.
  - unfold RegisterNonVirtual, get_function_args.
    destruct (fn_params F) as [|A [|B [|C rest]]] eqn:E;
      cbn [List.length Nat.leb negb].
    + right. split; [|eauto]. apply Hno. intros [Args H]. discriminate.
    + right. split; [|eauto]. apply Hno. intros [Args H]. discriminate.
    + right. split; [|eauto]. apply Hno. intros [Args H]. discriminate.
    + destruct (element_is TJNIEnv_ptr 0 (A :: B :: C :: rest)) eqn:E0; cbn [negb].
      2:{ right. split; [|eauto]. apply Hno. intros [Args H].
          injection H as -> _ _ _. cbn in E0. discriminate. }
      destruct (element_is Tjobject 1 (A :: B :: C :: rest)) eqn:E1; cbn [negb].
      2:{ right. split; [|eauto]. apply Hno. intros [Args H].
          injection H as _ -> _ _. cbn in E1. discriminate. }
      destruct (element_is Tjclass 2 (A :: B :: C :: rest)) eqn:E2; cbn [negb].
      2:{ right. split; [|eauto]. apply Hno. intros [Args H].
          injection H as _ _ -> _. cbn in E2. discriminate. }
      apply element_is_true in E0, E1, E2. cbn in E0, E1, E2.
      injection E0 as ->. injection E1 as ->. injection E2 as ->.
      assert (Hp : has_prelude [TJNIEnv_ptr; Tjobject; Tjclass] (fn_params F)).
      { apply has_prelude_split. exists rest. now rewrite E. }
      left. rewrite <- E. split; [exact Hp|].
      now apply make_method_dispatch.
Qed.
End RegistrationClaims.


(** ** Layout arithmetic *)

Lemma sizeof_pos (dm : data_model) (T : ctype) : 1 <= sizeof dm T.
Proof. destruct dm, T; simpl; lia. Qed.

Lemma align_up_ge (x a : Z) : 0 < a -> x <= align_up x a.
Proof.
  intros Ha. unfold align_up.
  pose proof (Z.div_mod (x + a - 1) a) as Hd.
  pose proof (Z.mod_pos_bound (x + a - 1) a Ha) as Hm.
  lia.
Qed.

Lemma members_align_pos (dm : data_model) (ms : list member) :
  1 <= members_align dm ms.
Proof. induction ms as [|m ms IH]; simpl; lia. Qed.

Lemma class_align_pos (dm : data_model) (c : cxx_class) :
  1 <= class_align dm c.
Proof.
  destruct c as [pod st ms|b st ms]; simpl;
    pose proof (members_align_pos dm ms); lia.
Qed.

Lemma round_size_ge (raw al : Z) :
  1 <= al -> raw <= round_size raw al /\ 1 <= round_size raw al.
Proof.
  intros Hal. unfold round_size.
  pose proof (align_up_ge (Z.max raw 1) al). lia.
Qed.

Lemma place_end_ge (dm : data_model) (ms : list member) :
  forall off, off <= snd (place dm off ms).
Proof.
  induction ms as [|m ms IH]; intros off; simpl; [lia|].
  specialize (IH (align_up off (alignof dm (m_type m)) + sizeof dm (m_type m))).
  destruct (place dm _ ms) as [tbl e]. simpl in *.
  pose proof (sizeof_pos dm (m_type m)).
  pose proof (align_up_ge off (alignof dm (m_type m))).
  unfold alignof in *. lia.
Qed.

Lemma place_bounds (dm : data_model) (ms : list member) :
  forall off f o,
    In (f, o) (fst (place dm off ms)) ->
    off <= o /\ o + 1 <= snd (place dm off ms).
Proof.
  induction ms as [|m ms IH]; intros off f o Hin; simpl in *; [contradiction|].
  pose proof (sizeof_pos dm (m_type m)) as Hs.
  pose proof (align_up_ge off (alignof dm (m_type m))) as Ha.
  unfold alignof in *.
  pose proof (place_end_ge dm ms
                (align_up off (sizeof dm (m_type m)) + sizeof dm (m_type m)))
    as He.
  specialize (IH (align_up off (sizeof dm (m_type m)) + sizeof dm (m_type m)) f o).
  destruct (place dm _ ms) as [tbl e]. simpl in *.
  destruct Hin as [Heq|Hin].
  - injection Heq as _ <-. lia.
  - specialize (IH Hin). lia.
Qed.

Lemma assoc_In {A} (k : string) (l : list (string * A)) (a : A) :
  assoc k l = Some a -> In (k, a) l.
Proof.
  induction l as [|[k' a'] l IH]; simpl; [discriminate|].
  destruct (String.eqb k k') eqn:E.
  - apply String.eqb_eq in E. subst k'. intros H. injection H as ->. now left.
  - intros H. right. now apply IH.
Qed.

Lemma assoc_member_place (dm : data_model) (ms : list member) (f : string)
    (T : ctype) :
  assoc_member f ms = Some T ->
  forall off, exists o,
    assoc f (fst (place dm off ms)) = Some o
    /\ off <= o
    /\ o + sizeof dm T <= snd (place dm off ms).
Proof.
  induction ms as [|m ms IH]; intros HT off; simpl in *; [discriminate|].
  pose proof (align_up_ge off (alignof dm (m_type m))) as Ha.
  pose proof (sizeof_pos dm (m_type m)) as Hs. unfold alignof in *.
  pose proof (place_end_ge dm ms
                (align_up off (sizeof dm (m_type m)) + sizeof dm (m_type m)))
    as He.
  destruct (place dm _ ms) as [tbl e] eqn:Ep. simpl in *.
  destruct (String.eqb f (m_name m)) eqn:E.
  - injection HT as <-. eexists. split; [reflexivity|]. lia.
  - destruct (IH HT (align_up off (sizeof dm (m_type m))
                     + sizeof dm (m_type m))) as (o & Ho & Hlo & Hhi).
    rewrite Ep in Ho, Hhi. simpl in Ho, Hhi.
    exists o. split; [exact Ho|]. lia.
Qed.

Lemma assoc_member_none_place (dm : data_model) (ms : list member)
    (f : string) :
  assoc_member f ms = None ->
  forall off, assoc f (fst (place dm off ms)) = None.
Proof.
  induction ms as [|m ms IH]; intros HT off; simpl in *; [reflexivity|].
  destruct (place dm _ ms) as [tbl e] eqn:Ep. simpl.
  destruct (String.eqb f (m_name m)); [discriminate|].
  specialize (IH HT (align_up off (alignof dm (m_type m))
                     + sizeof dm (m_type m))).
  now rewrite Ep in IH.
Qed.

Lemma raw_size_nonneg (dm : data_model) (c : cxx_class) : 0 <= raw_size dm c.
Proof.
  induction c as [pod st ms|b IH st ms]; cbn [raw_size].
  - apply place_end_ge.
  - destruct (is_empty b); [lia|].
    pose proof (class_align_pos dm b) as Hal.
    pose proof (round_size_ge (raw_size dm b) (class_align dm b) Hal).
    destruct (is_pod b); lia.
Qed.

Lemma nvsize_bounds (dm : data_model) (c : cxx_class) :
  raw_size dm c <= nvsize dm c /\ nvsize dm c <= sizeof_class dm c
  /\ 1 <= sizeof_class dm c.
Proof.
  pose proof (round_size_ge (raw_size dm c) (class_align dm c)
                (class_align_pos dm c)) as H.
  unfold nvsize, sizeof_class. destruct (is_pod c); lia.
Qed.

Lemma members_end_le_raw (dm : data_model) (c : cxx_class) :
  0 <= members_start dm c
  /\ snd (place dm (members_start dm c) (class_members c)) <= raw_size dm c.
Proof.
  destruct c as [pod st ms|b st ms]; cbn [members_start class_members raw_size].
  - split; lia.
  - pose proof (raw_size_nonneg dm b). pose proof (nvsize_bounds dm b).
    unfold nvsize, sizeof_class in *.
    destruct (is_empty b); [lia|]. destruct (is_pod b); lia.
Qed.

Lemma base_fits_in_derived (dm : data_model) (b : cxx_class)
    (st : list (string * ptr)) (ms : list member) :
  is_empty b = false ->
  members_start dm (Derived b st ms) = nvsize dm b
  /\ nvsize dm b <= raw_size dm (Derived b st ms).
Proof.
  intros He. cbn [members_start raw_size]. rewrite He. split; [reflexivity|].
  unfold nvsize, sizeof_class. destruct (is_pod b); lia.
Qed.

Lemma empty_class_has_no_field (dm : data_model) (c : cxx_class) (f : string) :
  is_empty c = true -> offsetof dm c f = None.
Proof.
  induction c as [pod st ms|b IH st ms]; intros He; cbn [offsetof].
  - destruct ms; [|discriminate]. destruct (assoc f st); reflexivity.
  - destruct ms; [|discriminate]. cbn [is_empty] in He.
    destruct (assoc f st); [reflexivity|]. cbn. now apply IH.
Qed.

Lemma member_type_Struct (pod : bool) (st : list (string * ptr))
    (ms : list member) (f : string) (T : ctype) :
  member_type (Struct pod st ms) f = Some T ->
  assoc f st = None /\ assoc_member f ms = Some T.
Proof.
  unfold member_type. cbn [find_member].
  destruct (assoc f st); [discriminate|].
  destruct (assoc_member f ms); cbn; [|discriminate].
  intros H. injection H as ->. now split.
Qed.

Lemma member_type_Derived (b : cxx_class) (st : list (string * ptr))
    (ms : list member) (f : string) (T : ctype) :
  member_type (Derived b st ms) f = Some T ->
  assoc f st = None
  /\ (assoc_member f ms = Some T
      \/ (assoc_member f ms = None /\ member_type b f = Some T)).
Proof.
  unfold member_type. cbn [find_member].
  destruct (assoc f st); [discriminate|].
  destruct (assoc_member f ms).
  - intros H. injection H as ->. split; [reflexivity|]. now left.
  - intros H. split; [reflexivity|]. right. now split.
Qed.

(** A non-static member has an offset, and lies within the unrounded size
    of its class. *)
Lemma offsetof_extent (dm : data_model) (c : cxx_class) (f : string)
    (T : ctype) :
  member_type c f = Some T ->
  exists o,
    offsetof dm c f = Some o /\ 0 <= o /\ o + sizeof dm T <= raw_size dm c.
Proof.
  induction c as [pod st ms|b IH st ms]; intros HT.
  - apply member_type_Struct in HT. destruct HT as [Hst Hm].
    destruct (members_end_le_raw dm (Struct pod st ms)) as [H0 He].
    cbn [class_members] in He.
    destruct (assoc_member_place dm ms f T Hm
                (members_start dm (Struct pod st ms)))
      as (o & Ho & Hlo & Hhi).
    exists o. cbn [offsetof]. rewrite Hst. split; [exact Ho|]. lia.
  - apply member_type_Derived in HT. destruct HT as [Hst [Hm|[Hm Hb]]].
    + destruct (members_end_le_raw dm (Derived b st ms)) as [H0 He].
      cbn [class_members] in He.
      destruct (assoc_member_place dm ms f T Hm
                  (members_start dm (Derived b st ms)))
        as (o & Ho & Hlo & Hhi).
      exists o. cbn [offsetof]. rewrite Hst, Ho. split; [reflexivity|]. lia.
    + destruct (IH Hb) as (o & Ho & Hlo & Hhi).
      exists o. cbn [offsetof]. rewrite Hst.
      rewrite (assoc_member_none_place dm ms f Hm).
      split; [exact Ho|]. split; [exact Hlo|].
      destruct (is_empty b) eqn:He.
      * rewrite (empty_class_has_no_field dm b f He) in Ho. discriminate.
      * destruct (base_fits_in_derived dm b st ms He) as [_ Hfit].
        pose proof (nvsize_bounds dm b). lia.
Qed.

Lemma offsetof_is_field (dm : data_model) (c : cxx_class) (f : string)
    (o : Z) :
  offsetof dm c f = Some o ->
  exists T, member_type c f = Some T /\ static_address c f = None.
Proof.
  unfold member_type, static_address.
  induction c as [pod st ms|b IH st ms]; cbn [offsetof find_member].
  - destruct (assoc f st); [discriminate|].
    destruct (assoc_member f ms) as [T|] eqn:E.
    + intros _. exists T. now split.
    + now rewrite (assoc_member_none_place dm ms f E).
  - destruct (assoc f st); [discriminate|].
    destruct (assoc_member f ms) as [T|] eqn:E.
    + intros _. exists T. now split.
    + rewrite (assoc_member_none_place dm ms f E). exact IH.
Qed.

Lemma to_uintptr_small (dm : data_model) (a : Z) :
  0 <= a < 2 ^ (8 * pointer_size dm) -> to_uintptr dm a = a.
Proof. intros H. unfold to_uintptr. now apply Z.mod_small. Qed.

(** What [REGISTER_FIELD] stores for a non-static member. *)
Lemma REGISTER_FIELD_offset (dm : data_model) (clz : cxx_class)
    (field : string) (T : ctype) (fid : FieldId) :
  REGISTER_FIELD dm clz field = Some fid ->
  member_type clz field = Some T ->
  sizeof_class dm clz <= 2 ^ (8 * pointer_size dm) ->
  offsetof dm clz field = Some (f_offset fid)
  /\ 0 <= f_offset fid
  /\ f_offset fid + sizeof dm T <= sizeof_class dm clz.
Proof.
  intros Hreg HT Hfit.
  destruct (offsetof_extent dm clz field T HT) as (o & Ho & Hlo & Hhi).
  pose proof (nvsize_bounds dm clz) as Hnv.
  pose proof (sizeof_pos dm T) as Hs.
  unfold REGISTER_FIELD, member_address, nullptr in Hreg. rewrite Ho in Hreg.
  destruct (static_address clz "clazz") as [cl|]; [|discriminate].
  injection Hreg as <-. cbn [f_offset].
  change (0 + o) with o. rewrite to_uintptr_small by lia.
  split; [exact Ho|]. lia.
Qed.

(** ** Classes that extend [Object] *)

Lemma extends_Object_not_empty (c : cxx_class) :
  extends_Object c -> is_empty c = false.
Proof.
  induction c as [pod st ms|b IH st ms]; cbn [extends_Object]; [tauto|].
  intros H. destruct ms; [|reflexivity]. cbn [is_empty].
  destruct H as [->|H]; [reflexivity|now apply IH].
Qed.

Lemma header_fits (dm : data_model) (c : cxx_class) :
  c = Object_class \/ extends_Object c ->
  is_empty c = false /\ sizeof_class dm Object_class <= nvsize dm c.
Proof.
  induction c as [pod st ms|b IH st ms]; intros [Hc|Hc];
    try (cbn [extends_Object] in Hc; contradiction); try discriminate.
  - rewrite Hc. split; [reflexivity|]. destruct dm; vm_compute; discriminate.
  - split; [now apply extends_Object_not_empty|].
    cbn [extends_Object] in Hc.
    assert (Hb : b = Object_class \/ extends_Object b) by tauto.
    destruct (IH Hb) as [He Hn].
    destruct (base_fits_in_derived dm b st ms He) as [_ Hfit].
    unfold nvsize at 1. cbn [is_pod]. lia.
Qed.

Lemma field_of_Object_descendant (dm : data_model) (c : cxx_class)
    (f : string) (o : Z) :
  extends_Object c ->
  offsetof dm c f = Some o ->
  o = 0 \/ sizeof_class dm Object_class <= o.
Proof.
  induction c as [pod st ms|b IH st ms]; cbn [extends_Object]; [tauto|].
  intros Hext Ho.
  assert (Hb : b = Object_class \/ extends_Object b) by tauto.
  destruct (header_fits dm b Hb) as [He Hn].
  destruct (base_fits_in_derived dm b st ms He) as [Hstart _].
  cbn [offsetof] in Ho. destruct (assoc f st); [discriminate|].
  destruct (assoc f (fst (place dm (members_start dm (Derived b st ms)) ms)))
    as [o'|] eqn:E.
  - injection Ho as <-. apply assoc_In, place_bounds in E. right. lia.
  - destruct Hext as [->|Hext]; [|now apply IH].
    left. cbn in Ho. destruct (String.eqb f "clazz"); [|discriminate].
    destruct dm; cbn in Ho; now injection Ho as <-.
Qed.

(** ** Field registration *)

(** C5.  For an instance field registered with offset [o] on a class
    whose instances have size [s], the size its [Class] descriptor
    records: whatever the base address of an instance, the address of the
    field is the base address plus [o]; and [o] is below [s]. *)
Theorem instance_field_address_and_bound {value jvalue va_slot W : Type}
    (dm : data_model) (clz : cxx_class) (field : string) (T : ctype)
    (fid : FieldId) (descriptor : class_ref value jvalue va_slot W)
    (base : ptr) :
  REGISTER_FIELD dm clz field = Some fid ->
  member_type clz field = Some T ->
  ref_addr descriptor = f_clazz fid ->
  instance_size (ref_class descriptor) = sizeof_class dm clz ->
  sizeof_class dm clz <= 2 ^ (8 * pointer_size dm) ->
  member_address dm clz base field = Some (base + f_offset fid)
  /\ 0 <= f_offset fid < instance_size (ref_class descriptor).
Proof.
  intros Hreg HT _ Hsize Hfit.
  destruct (REGISTER_FIELD_offset dm clz field T fid Hreg HT Hfit)
    as (Ho & Hlo & Hhi).
  pose proof (sizeof_pos dm T) as Hs.
  unfold member_address. rewrite Ho, Hsize. split; [reflexivity|]. lia.
Qed.

Lemma instance_field_address_and_bound_witness :
  REGISTER_FIELD LP64 Point_class "y"
  = Some (mkFieldId 4096 (Some "y"%string) None 12 0)
  /\ member_type Point_class "y" = Some Tjint
  /\ instance_size (sample_class "demo" "Point")
     = sizeof_class LP64 Point_class
  /\ member_address LP64 Point_class 65536 "y" = Some (65536 + 12)
  /\ 0 <= 12 < 16.
Proof.
  split; [reflexivity|]. split; [reflexivity|]. split; [reflexivity|].
  apply (instance_field_address_and_bound LP64 Point_class "y" Tjint
           (mkFieldId 4096 (Some "y"%string) None 12 0)
           (ClassRef 4096 (sample_class "demo" "Point")) 65536);
    [reflexivity | reflexivity | reflexivity | reflexivity
    | vm_compute; discriminate].
Defined.

(** C6, as the spec words it, fails: for a class whose layout puts the
    [Object] header first, the offset registered for its first field is
    the size of that header, while the field sits at the very start of
    the payload area. *)
Lemma payload_offset_counterexample :
  exists fid,
    REGISTER_FIELD LP64 Point_class "x" = Some fid
    /\ f_offset fid = 8
    /\ member_address LP64 Point_class 65536 "x"
       = Some (payload_start LP64 65536)
    /\ ~ offset_from_payload LP64 Point_class "x" fid.
Proof.
  eexists. split; [reflexivity|]. split; [reflexivity|].
  split; [reflexivity|].
  intros H. specialize (H 65536). vm_compute in H. discriminate.
Qed.

(** C6, amended.  For every instance field registered by
    [REGISTER_FIELD], on any class, the value stored is the byte offset
    of the member from the start of the object itself: the member of an
    instance at [base] is at [base] plus that value.  In a class that
    extends [Object] the value is therefore either zero, for the [clazz]
    pointer of the header, or at least the size of the header, and the
    member then lies that many bytes less into the payload area. *)
Theorem instance_offset_counts_from_object_start
    (dm : data_model) (clz : cxx_class) (field : string) (T : ctype)
    (fid : FieldId) (base : ptr) :
  REGISTER_FIELD dm clz field = Some fid ->
  member_type clz field = Some T ->
  sizeof_class dm clz <= 2 ^ (8 * pointer_size dm) ->
  member_address dm clz base field = Some (base + f_offset fid)
  /\ (extends_Object clz ->
      f_offset fid = 0
      \/ (sizeof_class dm Object_class <= f_offset fid
          /\ member_address dm clz base field
             = Some (payload_start dm base
                     + (f_offset fid - sizeof_class dm Object_class)))).
Proof.
  intros Hreg HT Hfit.
  destruct (REGISTER_FIELD_offset dm clz field T fid Hreg HT Hfit)
    as (Ho & _ & _).
  assert (Haddr : member_address dm clz base field
                  = Some (base + f_offset fid)).
  { unfold member_address. now rewrite Ho. }
  split; [exact Haddr|]. intros Hext.
  destruct (field_of_Object_descendant dm clz field (f_offset fid) Hext Ho)
    as [H0|Hhdr]; [now left|].
  right. split; [exact Hhdr|]. rewrite Haddr. unfold payload_start.
  f_equal. lia.
Qed.

Lemma instance_offset_counts_from_object_start_witness :
  REGISTER_FIELD LP64 Point_class "y"
  = Some (mkFieldId 4096 (Some "y"%string) None 12 0)
  /\ member_type Point_class "y" = Some Tjint
  /\ extends_Object Point_class
  /\ member_address LP64 Point_class 65536 "y" = Some (65536 + 12)
  /\ sizeof_class LP64 Object_class <= 12
  /\ member_address LP64 Point_class 65536 "y"
     = Some (payload_start LP64 65536 + (12 - sizeof_class LP64 Object_class)).
Proof.
  assert (Hext : extends_Object Point_class) by (simpl; now left).
  split; [reflexivity|]. split; [reflexivity|]. split; [exact Hext|].
  destruct (instance_offset_counts_from_object_start LP64 Point_class "y"
              Tjint (mkFieldId 4096 (Some "y"%string) None 12 0) 65536)
    as [Haddr Hpay]; [reflexivity | reflexivity | vm_compute; discriminate |].
  split; [exact Haddr|].
  destruct (Hpay Hext) as [H0|[Hhdr Hp]]; [discriminate|].
  split; [exact Hhdr | exact Hp].
Defined.

(** C9.  A [FieldId] produced by either registration macro has a null
    signature pointer, so no lookup that compares the signature key by
    exact string equality selects it. *)
Theorem registered_field_has_null_signature
    (dm : data_model) (clz : cxx_class) (field : string) (fid : FieldId) :
  REGISTER_FIELD dm clz field = Some fid
  \/ REGISTER_STATIC_FIELD dm clz field = Some fid ->
  f_signature fid = None
  /\ forall name signature, field_matches name signature fid = false.
Proof.
  intros H.
  assert (Hsig : f_signature fid = None).
  { destruct H as [H|H].
    - unfold REGISTER_FIELD in H.
      destruct (static_address clz "clazz"); [|discriminate].
      destruct (member_address dm clz nullptr field); [|discriminate].
      injection H as <-. reflexivity.
    - unfold REGISTER_STATIC_FIELD in H.
      destruct (static_address clz "clazz"); [|discriminate].
      destruct (static_address clz field); [|discriminate].
      injection H as <-. reflexivity. }
  split; [exact Hsig|].
  intros name signature. unfold field_matches. rewrite Hsig. cbn [key_equals].
  apply andb_false_r.
Qed.

Lemma registered_field_has_null_signature_witness :
  REGISTER_STATIC_FIELD LP64 Counter_class "instances"
  = Some (mkFieldId 12288 (Some "instances"%string) None 20480 1)
  /\ f_signature (mkFieldId 12288 (Some "instances"%string) None 20480 1) = None
  /\ forall name signature,
       field_matches name signature
         (mkFieldId 12288 (Some "instances"%string) None 20480 1) = false.
Proof.
  split; [reflexivity|].
  apply (registered_field_has_null_signature LP64 Counter_class "instances").
  right. reflexivity.
Defined.

(** A table made only of macro-registered fields answers no lookup. *)
Lemma find_field_null_signatures (name signature : string)
    (fs : list FieldId) :
  Forall (fun f => f_signature f = None) fs ->
  find_field name signature fs = None.
Proof.
  unfold find_field. induction 1 as [|f fs Hf _ IH]; [reflexivity|].
  simpl. unfold field_matches at 1. rewrite Hf. cbn [key_equals].
  now rewrite andb_false_r.
Qed.

(** ** [String::operator&] *)

(** C10.  The overloaded address-of on a [_jstring] reference returns a
    [String] pointer holding exactly the address of the referent: the
    address is carried over unchanged, only the pointee type is
    reinterpreted, and casting the result back gives the built-in address
    of the referent again. *)
Theorem String_operator_addr_preserves_address (jstr : reference) :
  r_class jstr = "_jstring"%string ->
  p_addr (String_operator_addr jstr) = r_addr jstr
  /\ p_class (String_operator_addr jstr) = "String"%string
  /\ reinterpret "_jstring" (String_operator_addr jstr) = addressof jstr.
Proof.
  intros Hty. unfold String_operator_addr.
  destruct jstr as [a c]. cbn [r_class] in Hty. subst c.
  unfold reinterpret, addressof. cbn [p_addr p_class r_addr r_class].
  repeat split.
Qed.

Lemma String_operator_addr_preserves_address_witness :
  r_class (Reference 24576 "_jstring") = "_jstring"%string
  /\ p_addr (String_operator_addr (Reference 24576 "_jstring")) = 24576
  /\ p_class (String_operator_addr (Reference 24576 "_jstring"))
     = "String"%string
  /\ reinterpret "_jstring" (String_operator_addr (Reference 24576 "_jstring"))
     = Pointer 24576 "_jstring".
Proof.
  split; [reflexivity|].
  apply (String_operator_addr_preserves_address (Reference 24576 "_jstring")).
  reflexivity.
Defined.

(** ** The class registry *)

Lemma cstr_eqb_true (a b : cstr) : cstr_eqb a b = true <-> a = b.
Proof.
  destruct a as [x|], b as [y|]; simpl; try (split; congruence).
  rewrite String.eqb_eq. split; congruence.
Qed.

Section RegistryClaims.
Context {value jvalue va_slot W : Type}.
Implicit Types (a b c dup : class_ref value jvalue va_slot W).
Implicit Types (r cs : list (class_ref value jvalue va_slot W)).

Lemma same_key_true a b :
  same_key a b = true <-> class_key a = class_key b.
Proof.
  unfold same_key, class_key.
  rewrite andb_true_iff, !cstr_eqb_true. split.
  - intros [-> ->]. reflexivity.
  - intros H. injection H as -> ->. now split.
Qed.

Lemma existsb_same_key c r :
  existsb (same_key c) r = true <-> In (class_key c) (map class_key r).
Proof.
  rewrite existsb_exists, in_map_iff. split.
  - intros (e & Hin & He). exists e. apply same_key_true in He. now split.
  - intros (e & He & Hin). exists e. split; [exact Hin|].
    now apply same_key_true.
Qed.

Lemma register_class_fresh c r :
  ~ In (class_key c) (map class_key r) ->
  register_class c r = (r ++ [c], REGISTERED).
Proof.
  intros Hfresh. unfold register_class.
  destruct (existsb (same_key c) r) eqn:E; [|reflexivity].
  apply existsb_same_key in E. contradiction.
Qed.

Lemma register_class_duplicate c r :
  In (class_key c) (map class_key r) ->
  register_class c r = (r, DUPLICATE).
Proof.
  intros Hdup. unfold register_class.
  apply existsb_same_key in Hdup. now rewrite Hdup.
Qed.

Lemma register_all_distinct cs :
  forall r,
    NoDup (map class_key (r ++ cs)) ->
    register_all cs r = (r ++ cs, repeat REGISTERED (List.length cs)).
Proof.
  induction cs as [|c cs IH]; intros r Hnd.
  - simpl. now rewrite app_nil_r.
  - cbn [register_all].
    rewrite register_class_fresh.
    + replace (r ++ c :: cs) with ((r ++ [c]) ++ cs) in *
        by (rewrite <- app_assoc; reflexivity).
      rewrite (IH (r ++ [c]) Hnd). reflexivity.
    + rewrite map_app in Hnd. cbn [map] in Hnd.
      apply NoDup_remove_2 in Hnd. intros Hin. apply Hnd.
      apply in_or_app. now left.
Qed.

Lemma register_class_keeps_registered c r (p : ptr) :
  registered r p -> registered (fst (register_class c r)) p.
Proof.
  unfold registered, register_class.
  destruct (existsb (same_key c) r); cbn [fst]; [auto|].
  rewrite map_app. intros H. apply in_or_app. now left.
Qed.

(** C7.  Registering a descriptor whose (classpath, classname) pair is
    already present is rejected: the registry is left as it was and the
    answer is the duplicate flag, which differs from the answer for an
    accepted registration.  Registering N descriptors with pairwise
    distinct pairs into an empty registry accepts each of them, and
    enumerating the registry then yields exactly those N entries, in the
    order they were registered. *)
Theorem registry_rejects_duplicates_and_keeps_order r dup cs :
  In (class_key dup) (map class_key r) ->
  NoDup (map class_key cs) ->
  (register_class dup r = (r, DUPLICATE) /\ DUPLICATE <> REGISTERED)
  /\ (get_class_registry (fst (register_all cs [])) = cs
      /\ List.length (get_class_registry (fst (register_all cs [])))
         = List.length cs
      /\ snd (register_all cs []) = repeat REGISTERED (List.length cs)).
Proof.
  intros Hdup Hnd. split.
  - split; [now apply register_class_duplicate|discriminate].
  - rewrite (register_all_distinct cs [] Hnd). cbn [fst snd app].
    unfold get_class_registry. now repeat split.
Qed.
End RegistryClaims.

Lemma registry_rejects_duplicates_and_keeps_order_witness :
  In (class_key (ClassRef 16384 (sample_class "java/lang" "String")))
     (map class_key sample_registry)
  /\ NoDup (map class_key sample_registry)
  /\ register_class (ClassRef 16384 (sample_class "java/lang" "String"))
       sample_registry
     = (sample_registry, DUPLICATE)
  /\ get_class_registry (fst (register_all sample_registry []))
     = sample_registry
  /\ List.length (get_class_registry (fst (register_all sample_registry [])))
     = 2%nat.
Proof.
  assert (Hin : In (class_key (ClassRef 16384 (sample_class "java/lang" "String")))
                   (map class_key sample_registry)) by (simpl; now left).
  assert (Hnd : NoDup (map class_key sample_registry)).
  { simpl. constructor.
    - simpl. intros [H|[]]. discriminate.
    - constructor; [intros []|constructor]. }
  split; [exact Hin|]. split; [exact Hnd|].
  destruct (registry_rejects_duplicates_and_keeps_order
              sample_registry
              (ClassRef 16384 (sample_class "java/lang" "String"))
              sample_registry Hin Hnd)
    as [[Hrej _] (Henum & Hlen & _)].
  repeat split; assumption.
Defined.

(** ** The class pointer of an instance *)

(** C8, as the spec words it, fails: the constructor stores whatever
    pointer it is given, a null one included. *)
Lemma Object_ctor_null_counterexample :
  clazz (Object_ctor nullptr) = nullptr
  /\ ~ object_invariant sample_registry (Object_ctor nullptr)
  /\ ~ object_invariant sample_registry (Object_ctor 12288).
Proof.
  split; [reflexivity|]. split.
  - intros [Hnull _]. now apply Hnull.
  - intros [_ Hreg]. unfold registered in Hreg. simpl in Hreg.
    destruct Hreg as [H|[H|[]]]; discriminate.
Qed.

Section ObjectClaims.
Context {value jvalue va_slot W : Type}.
Implicit Types (r cs : list (class_ref value jvalue va_slot W)).

Lemma register_all_keeps_registered cs :
  forall r (p : ptr),
    registered r p -> registered (fst (register_all cs r)) p.
Proof.
  induction cs as [|c cs IH]; intros r p Hp; [exact Hp|].
  cbn [register_all].
  pose proof (register_class_keeps_registered c r p Hp) as H1.
  destruct (register_class c r) as [r1 a]. cbn [fst] in H1.
  specialize (IH r1 p H1).
  destruct (register_all cs r1) as [r2 answers]. exact IH.
Qed.

(** C8, amended.  The constructor stores the pointer it is given and
    checks nothing.  Given a non-null pointer to a registered [Class]
    descriptor, the [clazz] field of the [Object] it builds, also as the
    header of an [ArrayObject], is non-null and refers to one of the
    registered descriptors; and this is preserved by every operation of
    the core: none writes [clazz], and registrations, accepted or
    rejected, in any number, never take a descriptor out of the
    registry. *)
Theorem Object_invariant_established_and_preserved
    r cs (clz instance_clz elems : ptr) (n esize : Z) :
  clz <> nullptr ->
  registered r clz ->
  let obj := Object_ctor clz in
  let arr := mkArrayObject obj instance_clz n esize elems in
  clazz obj = clz
  /\ object_invariant r obj
  /\ object_invariant r (ao_object arr)
  /\ object_invariant (fst (register_all cs r)) obj
  /\ object_invariant (fst (register_all cs r)) (ao_object arr).
Proof.
  intros Hnn Hreg obj arr.
  pose proof (register_all_keeps_registered cs r clz Hreg) as Hlater.
  unfold object_invariant. cbn [clazz ao_object obj arr].
  repeat split; assumption.
Qed.
End ObjectClaims.

Lemma Object_invariant_established_and_preserved_witness :
  registered sample_registry 4096
  /\ snd (register_all
            [ClassRef 16384 (sample_class "java/lang" "String");
             ClassRef 20480 (sample_class "demo" "Point")]
            sample_registry)
     = [DUPLICATE; REGISTERED]
  /\ object_invariant sample_registry (Object_ctor 4096)
  /\ object_invariant
       (fst (register_all
               [ClassRef 16384 (sample_class "java/lang" "String");
                ClassRef 20480 (sample_class "demo" "Point")]
               sample_registry))
       (Object_ctor 4096).
Proof.
  assert (Hreg : registered sample_registry 4096)
    by (unfold registered; simpl; now left).
  split; [exact Hreg|]. split; [reflexivity|].
  destruct (Object_invariant_established_and_preserved
              sample_registry
              [ClassRef 16384 (sample_class "java/lang" "String");
               ClassRef 20480 (sample_class "demo" "Point")]
              4096 0 0 0 0 ltac:(discriminate) Hreg)
    as (_ & Hnow & _ & Hlater & _).
  split; [exact Hnow | exact Hlater].
Defined.

(** ** The registration functions on concrete functions *)

Example Register_sum_args :
  is_built (Register (jvalue:=Z) (va_slot:=Z) (low_bytes LP64) (low_bytes LP64)
              sum_args 4096 (Some "sum"%string) (Some "(IBJ)I"%string)) = true.
Proof. reflexivity. Qed.

Example RegisterStatic_sum_args :
  RegisterStatic (jvalue:=Z) (va_slot:=Z) (low_bytes LP64) (low_bytes LP64)
    sum_args 4096 (Some "sum"%string) (Some "(IBJ)I"%string)
  = StaticAssert "Second Method argument expected jclass.".
Proof. reflexivity. Qed.

Example RegisterNonVirtual_sum_args :
  RegisterNonVirtual (jvalue:=Z) (va_slot:=Z) (low_bytes LP64) (low_bytes LP64)
    sum_args 4096 (Some "sum"%string) (Some "(IBJ)I"%string)
  = StaticAssert "Third Method argument expected jclass.".
Proof. reflexivity. Qed.

Example dispatch_a_three_slots :
  option_map (fun res => (fst res, calls (trace (snd res))))
    (call_a (low_bytes LP64) sum_args [Tjint; Tjbyte; Tjlong]
       [100; 200] [7; 2; 9] [])
  = Some (Some 318, [[100; 200; 7; 2; 9]]).
Proof. reflexivity. Qed.

Example dispatch_a_missing_slot :
  call_a (low_bytes LP64) sum_args [Tjint; Tjbyte; Tjlong]
    [100; 200] [7; 2] [] = None.
Proof. reflexivity. Qed.


Example dispatch_v_traps_on_jbyte :
  call_v (low_bytes LP64) sum_args [Tjint; Tjbyte; Tjlong]
    [100; 200] [7; 2; 9] [] = None.
Proof. reflexivity. Qed.

Example dispatch_v_three_wide_slots :
  option_map (fun res => (fst res, calls (trace (snd res))))
    (call_v (low_bytes LP64) sum_wide [Tjint; Tjlong; Tjobject]
       [100; 200] [4294967295; 2; 9] [])
  = Some (Some 310, [[100; 200; -1; 2; 9]]).
Proof. reflexivity. Qed.

(** The header's own [String] declares no static [clazz], so the field
    macros do not compile on it. *)
Example REGISTER_FIELD_on_String :
  REGISTER_FIELD LP64 String_class "str" = None
  /\ offsetof LP64 String_class "str" = Some 8.
Proof. split; reflexivity. Qed.

(** * Further properties of the header *)

(** ** Instantiating and invoking the generated entry points *)

Section DispatchMore.
Context {value jvalue va_slot W : Type}.
Variable va_read : ctype -> va_slot -> value.
Variable load : ctype -> jvalue -> value.

(** X1.  [dispatch<F, Prelude...>] can be instantiated exactly when the
    parameter list of [F] starts with [Prelude], whatever the prelude is;
    its two entry points are then the ones generated for the parameters
    that follow the prelude.  In every other case no entry point exists. *)
Theorem dispatch_instantiates_iff_prelude
    (F : cfunction value W) (Prelude : list ctype) :
  (has_prelude Prelude (fn_params F)
   /\ dispatch va_read load F Prelude
      = Some (Dispatcher
                (dispatch_v va_read F
                   (skipn (List.length Prelude) (fn_params F)))
                (dispatch_a load F
                   (skipn (List.length Prelude) (fn_params F)))))
  \/ (~ has_prelude Prelude (fn_params F)
      /\ dispatch (va_slot:=va_slot) va_read load F Prelude = None).
Proof.
  unfold dispatch.
  destruct (unwrap Prelude (fn_params F)) as [Args|] eqn:E.
  - left. apply unwrap_prefix in E. split.
    + apply has_prelude_split. now exists Args.
    + rewrite E, skipn_app, skipn_all, Nat.sub_diag. reflexivity.
  - right. split; [|reflexivity].
    intros H. apply has_prelude_split in H. destruct H as [Args H].
    apply unwrap_prefix in H. congruence.
Qed.

(** X2.  An entry point takes exactly one slot per remaining parameter
    and nothing more.  Slots that follow the ones the array entry point
    needs change nothing of what it does.  The same holds of the variadic
    entry point when no remaining parameter has a type the default
    argument promotions change: its result, its trace and the state it
    leaves are the same with and without further slots. *)
Theorem entry_points_ignore_following_slots
    (F : cfunction value W) (Args : list ctype) (pre : list value)
    (used rest : list va_slot) (used_a rest_a : list jvalue) (w : W) :
  List.length used_a = List.length Args ->
  call_a load F Args pre (used_a ++ rest_a) w
  = call_a load F Args pre used_a w
  /\ (unpromoted Args = true ->
      List.length used = List.length Args ->
      exists r c c' t,
        call_v va_read F Args pre used w
        = Some (r, Machine c t
                     (snd (fn_body F (pre ++ decode va_read Args used) w)))
        /\ call_v va_read F Args pre (used ++ rest) w
           = Some (r, Machine c' t
                        (snd (fn_body F (pre ++ decode va_read Args used) w)))).
Proof.
  intros Ha. split.
  - pose proof (call_a_run load F Args pre used_a w) as H1.
    pose proof (call_a_run load F Args pre (used_a ++ rest_a) w) as H2.
    cbv zeta in H1, H2.
    rewrite H1 by lia. rewrite H2 by (rewrite length_app; lia).
    now rewrite decode_app by exact Ha.
  - intros Hun Hv.
    pose proof (call_v_run va_read F Args pre used w Hun) as H1.
    pose proof (call_v_run va_read F Args pre (used ++ rest) w Hun) as H2.
    cbv zeta in H1, H2.
    rewrite H1 by lia. rewrite H2 by (rewrite length_app; lia).
    rewrite decode_app by exact Hv.
    eexists. eexists. eexists. eexists. split; reflexivity.
Qed.

(** X9.  The array entry point, for any parameter types: given one slot
    per remaining parameter it reads slot i through a pointer to the
    i-th remaining parameter type, in declaration order, then calls [F]
    once on the prelude values followed by the values read; it returns
    what [F] returned (nothing for [void]) and leaves the state [F]
    left. *)
Theorem array_entry_point_extracts_and_calls
    (F : cfunction value W) (Prelude Args : list ctype)
    (pre : list value) (arr : list jvalue) (w : W) :
  fn_params F = Prelude ++ Args ->
  (List.length Args <= List.length arr)%nat ->
  exists d ma,
    dispatch va_read load F Prelude = Some d
    /\ aargs d pre arr (enter 0%nat w)
       = Some (returned (fn_ret F)
                 (fst (fn_body F (pre ++ decode load Args arr) w)), ma)
    /\ trace ma = arr_events 0 Args ++ [EvCall (pre ++ decode load Args arr)]
    /\ heap ma = snd (fn_body F (pre ++ decode load Args arr) w)
    /\ (forall i T j, nth_error Args i = Some T -> nth_error arr i = Some j ->
          nth_error (decode load Args arr) i = Some (load T j)).
Proof.
  intros Hsig Harr.
  rewrite (dispatch_of_prefix va_read load F Prelude Args Hsig).
  pose proof (call_a_run load F Args pre arr w Harr) as Ha.
  cbv zeta in Ha. unfold call_a in Ha.
  eexists. eexists. split; [reflexivity|]. cbn [vargs aargs].
  split; [exact Ha|]. split; [reflexivity|]. split; [reflexivity|].
  intros i T j HT Hj. now apply decode_nth.
Qed.

(** X10.  The variadic entry point, when no remaining parameter has a
    type the default argument promotions change: given one argument per
    remaining parameter it takes argument i with [va_arg] at the i-th
    remaining parameter type, in declaration order, then calls [F] once
    on the prelude values followed by the values taken; it returns what
    [F] returned (nothing for [void]) and leaves the state [F] left. *)
Theorem variadic_entry_point_extracts_and_calls
    (F : cfunction value W) (Prelude Args : list ctype)
    (pre : list value) (va : list va_slot) (w : W) :
  fn_params F = Prelude ++ Args ->
  unpromoted Args = true ->
  (List.length Args <= List.length va)%nat ->
  exists d mv,
    dispatch va_read load F Prelude = Some d
    /\ vargs d pre (enter (0%nat, va) w)
       = Some (returned (fn_ret F)
                 (fst (fn_body F (pre ++ decode va_read Args va) w)), mv)
    /\ trace mv = va_events 0 Args ++ [EvCall (pre ++ decode va_read Args va)]
    /\ heap mv = snd (fn_body F (pre ++ decode va_read Args va) w)
    /\ (forall i T s, nth_error Args i = Some T -> nth_error va i = Some s ->
          nth_error (decode va_read Args va) i = Some (va_read T s)).
Proof.
  intros Hsig Hun Hva.
  rewrite (dispatch_of_prefix va_read load F Prelude Args Hsig).
  pose proof (call_v_run va_read F Args pre va w Hun Hva) as Hv.
  cbv zeta in Hv. unfold call_v in Hv.
  eexists. eexists. split; [reflexivity|]. cbn [vargs aargs].
  split; [exact Hv|]. split; [reflexivity|]. split; [reflexivity|].
  intros i T s HT Hs. now apply decode_nth.
Qed.

(** X11.  When no remaining parameter has a type the default argument
    promotions change, and the [va_list] and the packed array carry the
    same argument values, the two entry points return the same result,
    make the same single call of [F] and leave the same state, the one
    [F] left. *)
Theorem entry_points_agree_on_unpromoted_types
    (F : cfunction value W) (Prelude Args : list ctype)
    (pre : list value) (va : list va_slot) (arr : list jvalue) (w : W) :
  fn_params F = Prelude ++ Args ->
  unpromoted Args = true ->
  (List.length Args <= List.length va)%nat ->
  (List.length Args <= List.length arr)%nat ->
  decode va_read Args va = decode load Args arr ->
  exists d r mv ma,
    dispatch va_read load F Prelude = Some d
    /\ vargs d pre (enter (0%nat, va) w) = Some (r, mv)
    /\ aargs d pre arr (enter 0%nat w) = Some (r, ma)
    /\ r = returned (fn_ret F)
             (fst (fn_body F (pre ++ decode load Args arr) w))
    /\ heap mv = snd (fn_body F (pre ++ decode load Args arr) w)
    /\ heap ma = heap mv
    /\ calls (trace mv) = [pre ++ decode load Args arr]
    /\ calls (trace ma) = calls (trace mv).
Proof.
  intros Hsig Hun Hva Harr Hsame.
  rewrite (dispatch_of_prefix va_read load F Prelude Args Hsig).
  pose proof (call_v_run va_read F Args pre va w Hun Hva) as Hv.
  pose proof (call_a_run load F Args pre arr w Harr) as Ha.
  cbv zeta in Hv, Ha. unfold call_v in Hv. unfold call_a in Ha.
  rewrite Hsame in Hv.
  eexists. eexists. eexists. eexists.
  split; [reflexivity|]. cbn [vargs aargs].
  split; [exact Hv|]. split; [exact Ha|]. cbn [heap trace].
  rewrite !calls_app, calls_va_events, calls_arr_events. cbn [calls app].
  repeat split.
Qed.
End DispatchMore.

Lemma entry_points_ignore_following_slots_witness :
  List.length [7; 258; 9] = List.length [Tjint; Tjbyte; Tjlong]
  /\ call_a (low_bytes LP64) note_args [Tjint; Tjbyte; Tjlong] [100; 200]
       ([7; 258; 9] ++ [41]) []
     = call_a (low_bytes LP64) note_args [Tjint; Tjbyte; Tjlong] [100; 200]
         [7; 258; 9] []
  /\ unpromoted [Tjint; Tjlong; Tjobject] = true
  /\ exists r c c' t,
      call_v (low_bytes LP64) sum_wide [Tjint; Tjlong; Tjobject] [100; 200]
        [7; 8; 9] []
      = Some (r, Machine c t [[100; 200; 7; 8; 9]])
      /\ call_v (low_bytes LP64) sum_wide [Tjint; Tjlong; Tjobject] [100; 200]
           ([7; 8; 9] ++ [41; 42]) []
         = Some (r, Machine c' t [[100; 200; 7; 8; 9]]).
Proof.
  split; [reflexivity|].
  split.
  - apply (entry_points_ignore_following_slots (low_bytes LP64) (low_bytes LP64)
             note_args [Tjint; Tjbyte; Tjlong] [100; 200]
             [] [] [7; 258; 9] [41] []).
    reflexivity.
  - split; [reflexivity|].
    apply (entry_points_ignore_following_slots (low_bytes LP64) (low_bytes LP64)
             sum_wide [Tjint; Tjlong; Tjobject] [100; 200]
             [7; 8; 9] [41; 42] [7; 8; 9] [] []);
      reflexivity.
Defined.

Lemma array_entry_point_extracts_and_calls_witness :
  fn_params note_args = [TJNIEnv_ptr; Tjobject] ++ [Tjint; Tjbyte; Tjlong]
  /\ exists d ma,
      dispatch (low_bytes LP64) (low_bytes LP64) note_args [TJNIEnv_ptr; Tjobject]
      = Some d
      /\ aargs d [100; 200] [7; 255; 9] (enter 0%nat []) = Some (None, ma)
      /\ trace ma = [EvGet 0; EvLoad 0 Tjint; EvGet 1; EvLoad 1 Tjbyte;
                     EvGet 2; EvLoad 2 Tjlong; EvCall [100; 200; 7; -1; 9]]
      /\ heap ma = [[100; 200; 7; -1; 9]].
Proof.
  split; [reflexivity|].
  destruct (array_entry_point_extracts_and_calls
              (low_bytes LP64) (low_bytes LP64) note_args
              [TJNIEnv_ptr; Tjobject] [Tjint; Tjbyte; Tjlong]
              [100; 200] [7; 255; 9] [])
    as (d & ma & Hd & Ha & Ht & Hh & _); [reflexivity | simpl; lia |].
  exists d, ma. repeat split; assumption.
Defined.

Lemma variadic_entry_point_extracts_and_calls_witness :
  fn_params sum_wide = [TJNIEnv_ptr; Tjobject] ++ [Tjint; Tjlong; Tjobject]
  /\ unpromoted [Tjint; Tjlong; Tjobject] = true
  /\ exists d mv,
      dispatch (low_bytes LP64) (low_bytes LP64) sum_wide [TJNIEnv_ptr; Tjobject]
      = Some d
      /\ vargs d [100; 200] (enter (0%nat, [7; 8; 9]) []) = Some (Some 324, mv)
      /\ trace mv = [EvVaArg 0 Tjint; EvVaArg 1 Tjlong; EvVaArg 2 Tjobject;
                     EvCall [100; 200; 7; 8; 9]]
      /\ heap mv = [[100; 200; 7; 8; 9]].
Proof.
  split; [reflexivity|]. split; [reflexivity|].
  destruct (variadic_entry_point_extracts_and_calls
              (low_bytes LP64) (low_bytes LP64) sum_wide
              [TJNIEnv_ptr; Tjobject] [Tjint; Tjlong; Tjobject]
              [100; 200] [7; 8; 9] [])
    as (d & mv & Hd & Hv & Ht & Hh & _);
    [reflexivity | reflexivity | simpl; lia |].
  exists d, mv. repeat split; assumption.
Defined.

Lemma entry_points_agree_on_unpromoted_types_witness :
  unpromoted [Tjint; Tjlong] = true
  /\ decode (low_bytes LP64) [Tjint; Tjlong] [4294967303; 8]
     = decode (low_bytes LP64) [Tjint; Tjlong] [7; 8; 11]
  /\ exists d r mv ma,
      dispatch (low_bytes LP64) (low_bytes LP64) note_wide [TJNIEnv_ptr; Tjclass]
      = Some d
      /\ vargs d [100; 300] (enter (0%nat, [4294967303; 8]) []) = Some (r, mv)
      /\ aargs d [100; 300] [7; 8; 11] (enter 0%nat []) = Some (r, ma)
      /\ r = None
      /\ heap mv = [[100; 300; 7; 8]]
      /\ heap ma = heap mv.
Proof.
  split; [reflexivity|]. split; [reflexivity|].
  destruct (entry_points_agree_on_unpromoted_types
              (low_bytes LP64) (low_bytes LP64) note_wide
              [TJNIEnv_ptr; Tjclass] [Tjint; Tjlong]
              [100; 300] [4294967303; 8] [7; 8; 11] [])
    as (d & r & mv & ma & Hd & Hv & Ha & Hr & Hh & Hsame & _);
    [reflexivity | reflexivity | simpl; lia | simpl; lia | reflexivity |].
  exists d, r, mv, ma. repeat split; assumption.
Defined.

(** ** From registration to the call *)

Section RegistrationMore.
Context {value jvalue va_slot W : Type}.
Variable va_read : ctype -> va_slot -> value.
Variable load : ctype -> jvalue -> value.

Lemma make_method_built (F : cfunction value W) (Prelude : list ctype)
    (clazz : ptr) (name signature : cstr)
    (m : ManagedMethod value jvalue va_slot W) :
  make_method value jvalue va_slot W clazz name signature
    (dispatch va_read load F Prelude) = Built m ->
  exists Args,
    fn_params F = Prelude ++ Args
    /\ m = mkManagedMethod clazz name signature
             (dispatch_v va_read F Args) (dispatch_a load F Args).
Proof.
  unfold make_method.
  destruct (dispatch va_read load F Prelude) as [d|] eqn:E; [|discriminate].
  intros H. injection H as <-.
  destruct (dispatch_inv va_read load F Prelude d E) as (Args & Hp & Hv & Ha).
  exists Args. now rewrite Hv, Ha.
Qed.

Lemma register_as_built (s : shape) (F : cfunction value W) (clazz : ptr)
    (name signature : cstr) (m : ManagedMethod value jvalue va_slot W) :
  register_as s va_read load F clazz name signature = Built m ->
  exists Args,
    fn_params F = shape_prelude s ++ Args
    /\ m = mkManagedMethod clazz name signature
             (dispatch_v va_read F Args) (dispatch_a load F Args).
Proof.
  destruct s; cbn [register_as shape_prelude];
    unfold Register, RegisterStatic, RegisterNonVirtual;
    repeat match goal with
           | |- (if negb ?c then _ else _) = _ -> _ =>
               destruct c; cbn [negb]; [|discriminate]
           end;
    apply make_method_built.
Qed.

Lemma register_as_accepts (s : shape) (F : cfunction value W) (clazz : ptr)
    (name signature : cstr) (Args : list ctype) :
  fn_params F = shape_prelude s ++ Args ->
  register_as s va_read load F clazz name signature
  = Built (mkManagedMethod clazz name signature
             (dispatch_v va_read F Args) (dispatch_a load F Args)).
Proof.
  intros H.
  assert (Hd : dispatch va_read load F (shape_prelude s)
               = Some (Dispatcher (dispatch_v va_read F Args)
                                  (dispatch_a load F Args))).
  { unfold dispatch.
    replace (unwrap (shape_prelude s) (fn_params F)) with (Some Args)
      by (symmetry; now apply unwrap_prefix).
    reflexivity. }
  destruct s; cbn [register_as shape_prelude] in *;
    unfold Register, RegisterStatic, RegisterNonVirtual, get_function_args;
    rewrite Hd, H; reflexivity.
Qed.

(** X3.  Whatever the shape a function was registered with, the two
    addresses stored in the resulting [ManagedMethod] are entry points of
    that very function, and the descriptor keeps the class, name and
    signature it was given.  Through [addr_array], with the prelude
    values and one slot per remaining parameter, [F] is called once on
    the prelude values followed by the slots read at the types that
    follow the shape's prelude, and its result is handed back (nothing
    for [void]).  Through [addr_variadic] the same happens when none of
    those types is changed by the default argument promotions; when one
    is, the invocation has no result. *)
Theorem registered_method_reaches_its_function
    (s : shape) (F : cfunction value W) (clazz : ptr) (name signature : cstr)
    (m : ManagedMethod value jvalue va_slot W)
    (pre : list value) (va : list va_slot) (arr : list jvalue) (w : W) :
  let Args := skipn (List.length (shape_prelude s)) (fn_params F) in
  register_as s va_read load F clazz name signature = Built m ->
  (List.length Args <= List.length arr)%nat ->
  (mm_clazz m = clazz /\ mm_name m = name /\ mm_signature m = signature)
  /\ (exists ma,
        addr_array m pre arr (enter 0%nat w)
        = Some (returned (fn_ret F)
                  (fst (fn_body F (pre ++ decode load Args arr) w)), ma)
        /\ calls (trace ma) = [pre ++ decode load Args arr]
        /\ heap ma = snd (fn_body F (pre ++ decode load Args arr) w))
  /\ (unpromoted Args = true ->
      (List.length Args <= List.length va)%nat ->
      exists mv,
        addr_variadic m pre (enter (0%nat, va) w)
        = Some (returned (fn_ret F)
                  (fst (fn_body F (pre ++ decode va_read Args va) w)), mv)
        /\ calls (trace mv) = [pre ++ decode va_read Args va]
        /\ heap mv = snd (fn_body F (pre ++ decode va_read Args va) w))
  /\ (unpromoted Args = false ->
      addr_variadic m pre (enter (0%nat, va) w) = None).
Proof.
  intros Args Hreg Harr.
  destruct (register_as_built s F clazz name signature m Hreg)
    as (Args' & Hp & ->).
  assert (HA : Args = Args').
  { unfold Args. rewrite Hp, skipn_app, skipn_all, Nat.sub_diag.
    reflexivity. }
  rewrite <- HA. cbn [mm_clazz mm_name mm_signature addr_variadic addr_array].
  split; [now repeat split|].
  pose proof (call_a_run load F Args pre arr w Harr) as Ha.
  cbv zeta in Ha. unfold call_a in Ha.
  split; [|split].
  - eexists. split; [exact Ha|]. cbn [trace heap].
    rewrite calls_app, calls_arr_events. now split.
  - intros Hun Hva.
    pose proof (call_v_run va_read F Args pre va w Hun Hva) as Hv.
    cbv zeta in Hv. unfold call_v in Hv.
    eexists. split; [exact Hv|]. cbn [trace heap].
    rewrite calls_app, calls_va_events. now split.
  - intros Hun. exact (call_v_promoted va_read F Args pre va w Hun).
Qed.

(** X4.  The shapes are not exclusive in one direction: a function that
    [RegisterNonVirtual] accepts is accepted by [Register] too, and is
    refused by [RegisterStatic].  Registered through [Register], its class
    handle is no longer supplied by the caller's context: it is read from
    the first argument slot, at type [jclass], and the call is the one the
    non-virtual method makes when it is given that handle and the
    remaining slots. *)
Theorem nonvirtual_function_registers_as_virtual
    (F : cfunction value W) (clazz : ptr) (name signature : cstr)
    (m : ManagedMethod value jvalue va_slot W)
    (env obj : value) (cls : jvalue) (arr : list jvalue) (w : W) :
  RegisterNonVirtual va_read load F clazz name signature = Built m ->
  (List.length (fn_params F) <= 3 + List.length arr)%nat ->
  exists m' r mv mn,
    Register va_read load F clazz name signature = Built m'
    /\ (exists msg,
          RegisterStatic va_read load F clazz name signature
          = StaticAssert msg)
    /\ addr_array m' [env; obj] (cls :: arr) (enter 0%nat w) = Some (r, mv)
    /\ addr_array m [env; obj; load Tjclass cls] arr (enter 0%nat w)
       = Some (r, mn)
    /\ calls (trace mv) = calls (trace mn)
    /\ heap mv = heap mn.
Proof.
  intros Hreg Hlen.
  destruct (register_as_built NonVirtual F clazz name signature m Hreg)
    as (Args & Hp & ->).
  cbn [shape_prelude app] in Hp.
  assert (Hlen' : (List.length Args <= List.length arr)%nat).
  { rewrite Hp in Hlen. simpl in Hlen. lia. }
  pose proof (register_as_accepts Virtual F clazz name signature
                (Tjclass :: Args) Hp) as Hvirt.
  cbn [register_as] in Hvirt. rewrite Hvirt.
  pose proof (call_a_run load F (Tjclass :: Args) [env; obj] (cls :: arr) w)
    as H1.
  pose proof (call_a_run load F Args [env; obj; load Tjclass cls] arr w Hlen')
    as H2.
  cbv zeta in H1, H2. unfold call_a in H1, H2.
  specialize (H1 ltac:(simpl; lia)).
  cbn [decode app] in H1. cbn [app] in H2.
  eexists. eexists. eexists. eexists.
  split; [reflexivity|]. split.
  - unfold RegisterStatic, get_function_args. rewrite Hp. cbn. eauto.
  - cbn [addr_array]. split; [exact H1|]. split; [exact H2|].
    cbn [trace heap]. rewrite !calls_app, !calls_arr_events. now split.
Qed.
End RegistrationMore.

Lemma registered_method_reaches_its_function_witness :
  register_as Static (low_bytes LP64) (low_bytes LP64) note_wide
    4096 (Some "note"%string) (Some "(IJ)V"%string)
  = Built (mkManagedMethod 4096 (Some "note"%string) (Some "(IJ)V"%string)
             (dispatch_v (low_bytes LP64) note_wide [Tjint; Tjlong])
             (dispatch_a (low_bytes LP64) note_wide [Tjint; Tjlong]))
  /\ (exists ma,
        dispatch_a (low_bytes LP64) note_wide [Tjint; Tjlong]
          [100; 300] [4294967303; 8] (enter 0%nat [])
        = Some (None, ma)
        /\ calls (trace ma) = [[100; 300; 7; 8]]
        /\ heap ma = [[100; 300; 7; 8]])
  /\ (exists mv,
        dispatch_v (low_bytes LP64) note_wide [Tjint; Tjlong]
          [100; 300] (enter (0%nat, [7; 8]) [])
        = Some (None, mv)
        /\ calls (trace mv) = [[100; 300; 7; 8]]
        /\ heap mv = [[100; 300; 7; 8]]).
Proof.
  split; [reflexivity|].
  destruct (registered_method_reaches_its_function
              (low_bytes LP64) (low_bytes LP64) Static note_wide
              4096 (Some "note"%string) (Some "(IJ)V"%string)
              (mkManagedMethod 4096 (Some "note"%string) (Some "(IJ)V"%string)
                 (dispatch_v (low_bytes LP64) note_wide [Tjint; Tjlong])
                 (dispatch_a (low_bytes LP64) note_wide [Tjint; Tjlong]))
              [100; 300] [7; 8] [4294967303; 8] [])
    as (_ & Ha & Hv & _); [reflexivity | simpl; lia |].
  split; [exact Ha|]. apply Hv; [reflexivity | simpl; lia].
Defined.

Lemma nonvirtual_function_registers_as_virtual_witness :
  is_built (RegisterNonVirtual (jvalue:=Z) (va_slot:=Z)
              (low_bytes LP64) (low_bytes LP64)
              super_sum 4096 (Some "sum"%string) (Some "(IS)I"%string)) = true
  /\ exists m m' r mv mn,
      RegisterNonVirtual (jvalue:=Z) (va_slot:=Z)
        (low_bytes LP64) (low_bytes LP64)
        super_sum 4096 (Some "sum"%string) (Some "(IS)I"%string) = Built m
      /\ Register (jvalue:=Z) (va_slot:=Z) (low_bytes LP64) (low_bytes LP64)
           super_sum 4096 (Some "sum"%string) (Some "(IS)I"%string) = Built m'
      /\ addr_array m' [100; 200] (300 :: [7; 65545]) (enter 0%nat [])
         = Some (r, mv)
      /\ addr_array m [100; 200; 300] [7; 65545] (enter 0%nat [])
         = Some (r, mn)
      /\ calls (trace mv) = [[100; 200; 300; 7; 9]]
      /\ heap mv = heap mn.
Proof.
  split; [reflexivity|].
  destruct (RegisterNonVirtual (jvalue:=Z) (va_slot:=Z)
              (low_bytes LP64) (low_bytes LP64)
              super_sum 4096 (Some "sum"%string) (Some "(IS)I"%string))
    as [m| |] eqn:E; try discriminate.
  destruct (nonvirtual_function_registers_as_virtual
              (low_bytes LP64) (low_bytes LP64)
              super_sum 4096 (Some "sum"%string) (Some "(IS)I"%string)
              m 100 200 300 [7; 65545] [] E)
    as (m' & r & mv & mn & Hr & _ & Hv & Hn & Hc & Hh); [simpl; lia|].
  exists m, m', r, mv, mn.
  split; [reflexivity|]. split; [exact Hr|]. split; [exact Hv|].
  split; [exact Hn|]. split; [|exact Hh].
  rewrite Hc. injection E as <-. cbn [addr_array] in Hn.
  vm_compute in Hn. injection Hn as _ <-. reflexivity.
Defined.

(** ** Where registered fields lie *)

Lemma place_disjoint (dm : data_model) (ms : list member) :
  forall off f g o1 o2 Tf Tg,
    assoc f (fst (place dm off ms)) = Some o1 ->
    assoc g (fst (place dm off ms)) = Some o2 ->
    assoc_member f ms = Some Tf ->
    assoc_member g ms = Some Tg ->
    f <> g ->
    o1 + sizeof dm Tf <= o2 \/ o2 + sizeof dm Tg <= o1.
Proof.
  induction ms as [|m ms IH]; intros off f g o1 o2 Tf Tg Hf Hg HTf HTg Hne;
    simpl in *; [discriminate|].
  specialize (IH (align_up off (alignof dm (m_type m)) + sizeof dm (m_type m))
                 f g o1 o2 Tf Tg).
  pose proof (place_bounds dm ms
                (align_up off (alignof dm (m_type m)) + sizeof dm (m_type m)))
    as Hb.
  destruct (place dm _ ms) as [tbl e] eqn:Ep. simpl in *.
  destruct (String.eqb f (m_name m)) eqn:Ef;
    destruct (String.eqb g (m_name m)) eqn:Eg.
  - apply String.eqb_eq in Ef, Eg. congruence.
  - injection Hf as <-. injection HTf as <-.
    apply assoc_In in Hg. apply Hb in Hg. left. lia.
  - injection Hg as <-. injection HTg as <-.
    apply assoc_In in Hf. apply Hb in Hf. right. lia.
  - now apply IH.
Qed.

Lemma own_field_offset (dm : data_model) (c : cxx_class) (f : string)
    (T : ctype) (o : Z) :
  assoc f (class_statics c) = None ->
  assoc_member f (class_members c) = Some T ->
  offsetof dm c f = Some o ->
  assoc f (fst (place dm (members_start dm c) (class_members c))) = Some o
  /\ members_start dm c <= o.
Proof.
  intros Hst Hm Ho.
  destruct (assoc_member_place dm (class_members c) f T Hm (members_start dm c))
    as (o' & Ho' & Hlo & _).
  destruct c as [pod st ms|b st ms]; cbn [class_statics class_members] in *;
    cbn [offsetof] in Ho; rewrite Hst in Ho; rewrite Ho' in Ho;
    injection Ho as <-; now split.
Qed.

Lemma inherited_field_offset (dm : data_model) (b : cxx_class)
    (st : list (string * ptr)) (ms : list member) (f : string) (T : ctype)
    (o : Z) :
  assoc f st = None ->
  assoc_member f ms = None ->
  member_type b f = Some T ->
  offsetof dm (Derived b st ms) f = Some o ->
  offsetof dm b f = Some o
  /\ o + sizeof dm T <= members_start dm (Derived b st ms).
Proof.
  intros Hst Hm Hb Ho.
  cbn [offsetof] in Ho. rewrite Hst in Ho.
  rewrite (assoc_member_none_place dm ms f Hm) in Ho.
  split; [exact Ho|].
  destruct (offsetof_extent dm b f T Hb) as (o' & Ho' & _ & Hhi).
  rewrite Ho in Ho'. injection Ho' as <-.
  destruct (is_empty b) eqn:He.
  - rewrite (empty_class_has_no_field dm b f He) in Ho. discriminate.
  - destruct (base_fits_in_derived dm b st ms He) as [-> _].
    pose proof (nvsize_bounds dm b). lia.
Qed.

Lemma offsetof_disjoint (dm : data_model) (c : cxx_class) :
  forall f g o1 o2 Tf Tg,
    offsetof dm c f = Some o1 ->
    offsetof dm c g = Some o2 ->
    member_type c f = Some Tf ->
    member_type c g = Some Tg ->
    f <> g ->
    o1 + sizeof dm Tf <= o2 \/ o2 + sizeof dm Tg <= o1.
Proof.
  induction c as [pod st ms|b IH st ms]; intros f g o1 o2 Tf Tg Hf Hg HTf HTg Hne.
  - apply member_type_Struct in HTf, HTg.
    destruct HTf as [Hsf Hmf]. destruct HTg as [Hsg Hmg].
    destruct (own_field_offset dm (Struct pod st ms) f Tf o1 Hsf Hmf Hf)
      as [Hf' _].
    destruct (own_field_offset dm (Struct pod st ms) g Tg o2 Hsg Hmg Hg)
      as [Hg' _].
    cbn [class_members] in *. eapply place_disjoint; eauto.
  - apply member_type_Derived in HTf, HTg.
    destruct HTf as [Hsf [Hmf|[Hmf Hbf]]];
      destruct HTg as [Hsg [Hmg|[Hmg Hbg]]].
    + destruct (own_field_offset dm (Derived b st ms) f Tf o1 Hsf Hmf Hf)
        as [Hf' _].
      destruct (own_field_offset dm (Derived b st ms) g Tg o2 Hsg Hmg Hg)
        as [Hg' _].
      cbn [class_members] in *. eapply place_disjoint; eauto.
    + destruct (own_field_offset dm (Derived b st ms) f Tf o1 Hsf Hmf Hf)
        as [_ Hlo].
      destruct (inherited_field_offset dm b st ms g Tg o2 Hsg Hmg Hbg Hg)
        as [_ Hhi].
      right. lia.
    + destruct (own_field_offset dm (Derived b st ms) g Tg o2 Hsg Hmg Hg)
        as [_ Hlo].
      destruct (inherited_field_offset dm b st ms f Tf o1 Hsf Hmf Hbf Hf)
        as [_ Hhi].
      left. lia.
    + destruct (inherited_field_offset dm b st ms f Tf o1 Hsf Hmf Hbf Hf)
        as [Hf' _].
      destruct (inherited_field_offset dm b st ms g Tg o2 Hsg Hmg Hbg Hg)
        as [Hg' _].
      eapply IH; eauto.
Qed.

Lemma static_member_has_no_offset (dm : data_model) (c : cxx_class)
    (f : string) (a : ptr) :
  static_address c f = Some a -> offsetof dm c f = None.
Proof.
  unfold static_address.
  induction c as [pod st ms|b IH st ms]; cbn [find_member offsetof].
  - destruct (assoc f st); [reflexivity|].
    destruct (assoc_member f ms); discriminate.
  - destruct (assoc f st); [reflexivity|].
    destruct (assoc_member f ms) as [T|] eqn:E; [discriminate|].
    rewrite (assoc_member_none_place dm ms f E). exact IH.
Qed.

(** X6.  A field registered by [REGISTER_FIELD] for a non-static member
    lies entirely inside an instance: its offset plus the size of its
    declared type does not exceed the size of the class, so reading the
    field of an instance at [base] stays within the bytes from [base] to
    [base + sizeof(clz)]. *)
Theorem registered_field_lies_inside_instance
    (dm : data_model) (clz : cxx_class) (field : string) (fid : FieldId)
    (T : ctype) (base : ptr) :
  REGISTER_FIELD dm clz field = Some fid ->
  member_type clz field = Some T ->
  sizeof_class dm clz <= 2 ^ (8 * pointer_size dm) ->
  base <= base + f_offset fid
  /\ base + f_offset fid + sizeof dm T <= base + sizeof_class dm clz.
Proof.
  intros Hreg HT Hfit.
  destruct (REGISTER_FIELD_offset dm clz field T fid Hreg HT Hfit)
    as (_ & Hlo & Hhi).
  lia.
Qed.

Lemma registered_field_lies_inside_instance_witness :
  REGISTER_FIELD LP64 Point_class "y"
  = Some (mkFieldId 4096 (Some "y"%string) None 12 0)
  /\ member_type Point_class "y" = Some Tjint
  /\ 65536 <= 65536 + 12
  /\ 65536 + 12 + sizeof LP64 Tjint <= 65536 + sizeof_class LP64 Point_class.
Proof.
  split; [reflexivity|]. split; [reflexivity|].
  apply (registered_field_lies_inside_instance LP64 Point_class "y"
           (mkFieldId 4096 (Some "y"%string) None 12 0) Tjint 65536);
    [reflexivity | reflexivity | vm_compute; discriminate].
Defined.

(** X7.  Two different non-static members of a class, inherited ones
    included, are registered by [REGISTER_FIELD] with offsets whose byte
    ranges do not overlap: one field ends before the other starts. *)
Theorem registered_fields_do_not_overlap
    (dm : data_model) (clz : cxx_class) (f g : string)
    (fid_f fid_g : FieldId) (Tf Tg : ctype) :
  REGISTER_FIELD dm clz f = Some fid_f ->
  REGISTER_FIELD dm clz g = Some fid_g ->
  member_type clz f = Some Tf ->
  member_type clz g = Some Tg ->
  f <> g ->
  sizeof_class dm clz <= 2 ^ (8 * pointer_size dm) ->
  f_offset fid_f + sizeof dm Tf <= f_offset fid_g
  \/ f_offset fid_g + sizeof dm Tg <= f_offset fid_f.
Proof.
  intros Hf Hg HTf HTg Hne Hfit.
  destruct (REGISTER_FIELD_offset dm clz f Tf fid_f Hf HTf Hfit) as [Hof _].
  destruct (REGISTER_FIELD_offset dm clz g Tg fid_g Hg HTg Hfit) as [Hog _].
  eapply offsetof_disjoint; eauto.
Qed.

Lemma registered_fields_do_not_overlap_witness :
  REGISTER_FIELD LP64 Point_class "y"
  = Some (mkFieldId 4096 (Some "y"%string) None 12 0)
  /\ REGISTER_FIELD LP64 Point_class "x"
     = Some (mkFieldId 4096 (Some "x"%string) None 8 0)
  /\ (12 + sizeof LP64 Tjint <= 8 \/ 8 + sizeof LP64 Tjint <= 12).
Proof.
  split; [reflexivity|]. split; [reflexivity|].
  apply (registered_fields_do_not_overlap LP64 Point_class "y" "x"
           (mkFieldId 4096 (Some "y"%string) None 12 0)
           (mkFieldId 4096 (Some "x"%string) None 8 0)
           Tjint Tjint);
    [reflexivity | reflexivity | reflexivity | reflexivity
    | discriminate | vm_compute; discriminate].
Defined.

(** X12.  [REGISTER_FIELD] also accepts a name that designates a static
    data member: the object expression is then irrelevant, and the value
    stored is the member's absolute address, the one
    [REGISTER_STATIC_FIELD] stores, but marked [is_static = 0]. *)
Theorem REGISTER_FIELD_on_static_member
    (dm : data_model) (clz : cxx_class) (field : string) (cl a : ptr) :
  static_address clz "clazz" = Some cl ->
  static_address clz field = Some a ->
  REGISTER_FIELD dm clz field
  = Some (mkFieldId cl (Some field) None (to_uintptr dm a) 0)
  /\ REGISTER_STATIC_FIELD dm clz field
     = Some (mkFieldId cl (Some field) None (to_uintptr dm a) 1)
  /\ (forall base, member_address dm clz base field = Some a)
  /\ member_type clz field = None.
Proof.
  intros Hcl Ha.
  pose proof (static_member_has_no_offset dm clz field a Ha) as Hno.
  assert (Haddr : forall base, member_address dm clz base field = Some a).
  { intros base. unfold member_address. now rewrite Hno. }
  unfold REGISTER_FIELD, REGISTER_STATIC_FIELD.
  rewrite Hcl, Ha, (Haddr nullptr).
  repeat split; try exact Haddr.
  unfold member_type. unfold static_address in Ha.
  destruct (find_member clz field) as [[a'|T]|]; congruence.
Qed.

Lemma REGISTER_FIELD_on_static_member_witness :
  static_address Counter_class "clazz" = Some 12288
  /\ static_address Counter_class "instances" = Some 20480
  /\ REGISTER_FIELD LP64 Counter_class "instances"
     = Some (mkFieldId 12288 (Some "instances"%string) None 20480 0)
  /\ REGISTER_STATIC_FIELD LP64 Counter_class "instances"
     = Some (mkFieldId 12288 (Some "instances"%string) None 20480 1).
Proof.
  split; [reflexivity|]. split; [reflexivity|].
  destruct (REGISTER_FIELD_on_static_member LP64 Counter_class "instances"
              12288 20480 eq_refl eq_refl) as (H1 & H2 & _).
  split; [exact H1 | exact H2].
Defined.
